(** * Cost-aware model router: the core dispatch pipeline

    A shallow embedding of the router core:
    - [Costs]          (core/costs.ts: the cost estimator),
    - [Telemetry]      (core/telemetry.ts: the bounded outcome window),
    - [CircuitBreaker] (core/circuitBreaker.ts: the three-state breaker),
    - [Policy]         (core/policy.ts: [RoutingPolicy.select]),
    - [Router]         (core/router.ts: [Router.useModelWithInfo]),
    - [Baseline]       (the baseline cost estimator, a caller of [Costs]),
    followed by the properties proved about them.

    Conventions of the embedding.
    - A JavaScript [number] that holds money, a weight or a score is an exact
      rational ([Q]); IEEE rounding, NaN and the infinities are not modelled.
      Durations, timestamps and counters are integers ([Z]).
    - An optional field ([x?: T], possibly [undefined]) is an [option].
    - A [Map<string, V>] is a [gmap string V].
    - [Date.now()] and [Math.random()] are inputs: the environment holds the
      sequence of values they return, the world holds how many were read. *)

From Stdlib Require Import ZArith QArith Qround Qminmax Lia Lqa.
From Stdlib Require Import Ascii String.
From Stdlib Require DecimalString.
From stdpp Require Import gmap strings list fin_maps sorting.

Local Open Scope Z_scope.

(** ** JavaScript helpers *)

(** Truthiness of a number: every number but 0 (NaN is not modelled). *)
Definition truthyQ (q : Q) : bool := negb (Qeq_bool q 0).
Definition truthyZ (z : Z) : bool := negb (z =? 0).

(** [a < b] and [a > b] on rationals, as booleans. *)
Definition Qlt_bool (a b : Q) : bool := negb (Qle_bool b a).
Definition Qgt_bool (a b : Q) : bool := Qlt_bool b a.

(** [Math.max(a, b)] and [Math.ceil(x)]. *)
Definition Math_max (a b : Q) : Q := if Qle_bool a b then b else a.
Definition Math_ceil (x : Q) : Q := inject_Z (Qceiling x).

(** ** [Array.prototype.sort] with a comparator

    The sort is stable: [x] stays in front of a later [y] unless the
    comparator says [cmp x y > 0]. *)
Section js_sort.
Context {A : Type} (cmp : A → A → Q).

Fixpoint js_insert (x : A) (l : list A) : list A :=
  match l with
  | [] => [x]
  | y :: l' =>
      if Qgt_bool (cmp x y) 0 then y :: js_insert x l' else x :: y :: l'
  end.

Definition js_sort (l : list A) : list A := foldr js_insert [] l.
End js_sort.

(** ** core/costs.ts *)
Module Costs.
Local Open Scope Q_scope.

(** USD per 1000 tokens. *)
Record ModelCosts := { input : Q; output : Q }.

(** Modelled from the spec: [costs.json], the price book the estimator
    imports, is a mapping from simulated model names to rates with a
    required key ["default"] that provides the fallback rates. *)
Record PriceBook := {
  default_rates : ModelCosts;
  named_rates : gmap string ModelCosts
}.

(** [this.costs[name]] on that object. *)
Definition costs_get (costs : PriceBook) (name : string) : option ModelCosts :=
  if decide (name = "default"%string) then Some (default_rates costs)
  else named_rates costs !! name.

Record CostEstimateParams := {
  promptChars : Q;
  expectedOutputTokens : option Q;
  simulatedModelName : string;
  charsPerToken : option Q;
  requestFixedFeeUSD : option Q;
  discountFactor : option Q
}.

Record CostEstimate := {
  inputTokens : Q;
  outputTokens : Q;
  inputCostUSD : Q;
  outputCostUSD : Q;
  fixedFeeUSD : Q;
  totalUSD : Q;
  estimatedModelName : string  (* the field simulatedModelName of the estimate *)
}.

(** [Math.ceil(chars / charsPerToken)], for [charsPerToken] other than 0
    (the code divides to an infinity or to NaN there), the quotient taken
    exactly: the code rounds it to a double first, which can move the
    ceiling by one when the quotient is not a double. *)
Definition estimateTokens (chars charsPerToken : Q) : Q :=
  Math_ceil (chars / charsPerToken).

(** [this.costs[simulatedModelName] || this.costs.default] *)
Definition getModelCosts (costs : PriceBook) (name : string) : ModelCosts :=
  match costs_get costs name with
  | Some c => c
  | None => default_rates costs
  end.

Definition estimateCost (costs : PriceBook) (params : CostEstimateParams)
  : CostEstimate :=
  let charsPerToken := default (4 # 1) (charsPerToken params) in
  let requestFixedFeeUSD := default 0 (requestFixedFeeUSD params) in
  let discountFactor := default 1 (discountFactor params) in
  let inputTokens := estimateTokens (promptChars params) charsPerToken in
  let outputTokens :=
    match expectedOutputTokens params with
    | Some e =>
        if truthyQ e && Qgt_bool e 0 then e
        else Math_max 1 (Math_ceil (inputTokens * (2 # 10)))
    | None => Math_max 1 (Math_ceil (inputTokens * (2 # 10)))
    end in
  let modelCosts := getModelCosts costs (simulatedModelName params) in
  let inputCostUSD := (inputTokens / 1000) * input modelCosts in
  let outputCostUSD := (outputTokens / 1000) * output modelCosts in
  let fixedFeeUSD := requestFixedFeeUSD in
  let totalUSD := (inputCostUSD + outputCostUSD + fixedFeeUSD) * discountFactor in
  {| inputTokens := inputTokens;
     outputTokens := outputTokens;
     inputCostUSD := inputCostUSD * discountFactor;
     outputCostUSD := outputCostUSD * discountFactor;
     fixedFeeUSD := fixedFeeUSD * discountFactor;
     totalUSD := totalUSD;
     estimatedModelName := simulatedModelName params |}.

(** [r] is the value of the one [Math.random()] call. *)
Definition estimateCostWithVariance (costs : PriceBook)
    (params : CostEstimateParams) (r : Q) : CostEstimate :=
  let base := estimateCost costs params in
  let jitter := (r - (5 # 10)) * (1 # 10) in
  let varianceFactor := 1 + jitter in
  {| inputTokens := inputTokens base;
     outputTokens := outputTokens base;
     inputCostUSD := inputCostUSD base * varianceFactor;
     outputCostUSD := outputCostUSD base * varianceFactor;
     fixedFeeUSD := fixedFeeUSD base;
     totalUSD := totalUSD base * varianceFactor;
     estimatedModelName := estimatedModelName base |}.

End Costs.

(** ** core/telemetry.ts *)
Module Telemetry.

Inductive Outcome := success | failure | timeout.

Global Instance Outcome_eq_dec : EqDecision Outcome.
Proof. solve_decision. Defined.

Record TelemetryRecord := {
  provider : string;
  modelType : string;
  latencyMs : Z;
  timestamp : Z;
  outcome : Outcome
}.

Record TelemetryStats := {
  count : Z;
  successes : Z;   (* the field success *)
  failures : Z;    (* the field failure *)
  timeouts : Z;    (* the field timeout *)
  p50Latency : option Z;
  p95Latency : option Z
}.

(** The object: [windowSize] is fixed at construction, [store] is mutated. *)
Record t := {
  windowSize : Z;
  store : gmap string (list TelemetryRecord)
}.

Definition new (windowSize : Z) : t :=
  {| windowSize := windowSize; store := ∅ |}.

Definition key (provider modelType : string) : string :=
  (provider ++ "::" ++ modelType)%string.

(** [arr.splice(0, deleteCount)]: a negative count removes nothing, a
    count beyond the length removes everything. *)
Definition splice_head {A} (arr : list A) (deleteCount : Z) : list A :=
  drop (Z.to_nat deleteCount) arr.

Definition record (tel : t) (rec : TelemetryRecord) : t :=
  let k := key (provider rec) (modelType rec) in
  let arr := default [] (store tel !! k) ++ [rec] in
  let arr :=
    if Z.of_nat (length arr) >? windowSize tel
    then splice_head arr (Z.of_nat (length arr) - windowSize tel)
    else arr in
  {| windowSize := windowSize tel; store := <[k := arr]> (store tel) |}.

Definition percentile (sortedLatencies : list Z) (p : Q) : option Z :=
  if Z.of_nat (length sortedLatencies) =? 0 then None
  else
    let idx :=
      Z.min (Z.of_nat (length sortedLatencies) - 1)
            (Z.max 0 (Qfloor (p * inject_Z (Z.of_nat (length sortedLatencies) - 1)))) in
    sortedLatencies !! Z.to_nat idx.

Definition count_outcome (o : Outcome) (arr : list TelemetryRecord) : Z :=
  Z.of_nat (length (filter (λ a, outcome a = o) arr)).

(** [arr.map((a) => a.latencyMs).sort((a, b) => a - b)] *)
Definition sorted_latencies (arr : list TelemetryRecord) : list Z :=
  js_sort (λ a b, inject_Z (a - b)) (map latencyMs arr).

Definition getStats (tel : t) (provider modelType : string) : TelemetryStats :=
  let k := key provider modelType in
  let arr := default [] (store tel !! k) in
  let count := Z.of_nat (length arr) in
  if count =? 0 then
    {| count := 0; successes := 0; failures := 0; timeouts := 0;
       p50Latency := None; p95Latency := None |}
  else
    let latencies := sorted_latencies arr in
    {| count := count;
       successes := count_outcome success arr;
       failures := count_outcome failure arr;
       timeouts := count_outcome timeout arr;
       p50Latency := percentile latencies (5 # 10);
       p95Latency := percentile latencies (95 # 100) |}.

Definition clear (tel : t) : t :=
  {| windowSize := windowSize tel; store := ∅ |}.

End Telemetry.

(** ** core/circuitBreaker.ts *)
Module CircuitBreaker.

Inductive State := closed | open | half_open.

Global Instance State_eq_dec : EqDecision State.
Proof. solve_decision. Defined.

Record CircuitOptions := {
  failureThreshold : Z;
  coolOffMs : Z
}.

Record Entry := {
  state : State;
  consecutiveFailures : Z;
  openedAt : option Z
}.

(** The object: [options] is fixed at construction, [map] is mutated. *)
Record t := {
  options : CircuitOptions;
  map : gmap string Entry
}.

Definition new (options : CircuitOptions) : t :=
  {| options := options; map := ∅ |}.

Definition key (provider modelType : string) : string :=
  (provider ++ "::" ++ modelType)%string.

Definition fresh_entry : Entry :=
  {| state := closed; consecutiveFailures := 0; openedAt := None |}.

(** [e.openedAt && now - e.openedAt >= coolOffMs]: an absent [openedAt]
    and the timestamp 0 are both falsy. *)
Definition cooled_off (opts : CircuitOptions) (now : Z) (e : Entry) : bool :=
  match openedAt e with
  | Some at_ => truthyZ at_ && (now - at_ >=? coolOffMs opts)
  | None => false
  end.

(** [now] is the value of [Date.now()], which the method reads when the
    entry is open. *)
Definition isOpen (now : Z) (cb : t) (provider modelType : string) : bool * t :=
  match map cb !! key provider modelType with
  | None => (false, cb)
  | Some e =>
      if decide (state e = open) then
        if cooled_off (options cb) now e then
          let e' := {| state := half_open;
                       consecutiveFailures := consecutiveFailures e;
                       openedAt := openedAt e |} in
          (false, {| options := options cb;
                     map := <[key provider modelType := e']> (map cb) |})
        else (true, cb)
      else (false, cb)
  end.

Definition onSuccess (cb : t) (provider modelType : string) : t :=
  let k := key provider modelType in
  let e := default fresh_entry (map cb !! k) in
  let e := {| state := closed; consecutiveFailures := 0; openedAt := None |} in
  {| options := options cb; map := <[k := e]> (map cb) |}.

(** [now] is the value of [Date.now()], read when the breaker opens. *)
Definition onFailure (now : Z) (cb : t) (provider modelType : string) : t :=
  let k := key provider modelType in
  let e := default fresh_entry (map cb !! k) in
  let failures := consecutiveFailures e + 1 in
  let e :=
    if failures >=? failureThreshold (options cb)
    then {| state := open; consecutiveFailures := failures; openedAt := Some now |}
    else {| state := state e; consecutiveFailures := failures; openedAt := openedAt e |} in
  {| options := options cb; map := <[k := e]> (map cb) |}.

Definition reset (cb : t) (provider modelType : string) : t :=
  {| options := options cb; map := delete (key provider modelType) (map cb) |}.

Definition clearAll (cb : t) : t :=
  {| options := options cb; map := ∅ |}.

End CircuitBreaker.

(** ** Values, parameters and handlers (types/model.ts, types/provider.ts) *)

(** The part of a JavaScript value the core looks at. *)
Inductive JsValue :=
| JsUndefined
| JsNull
| JsBool (b : bool)
| JsNumber (q : Q)
| JsString (s : string)
| JsObject.

Definition truthy (v : JsValue) : bool :=
  match v with
  | JsUndefined | JsNull => false
  | JsBool b => b
  | JsNumber q => truthyQ q
  | JsString s => negb (String.eqb s "")
  | JsObject => true
  end.

(** [params]: an object, read by field name; an absent field is [undefined]. *)
Definition get_field (params : gmap string JsValue) (field : string) : JsValue :=
  default JsUndefined (params !! field).

Record JsError := { name : string; message : string }.

(** What the promise a handler returns does: it resolves or rejects after
    so many milliseconds, or stays pending for ever. *)
Inductive Settlement :=
| resolves (value : JsValue) (afterMs : Z)
| rejects (err : JsError) (afterMs : Z)
| pending.

Module Provider.

Record CostCapabilities := {
  simulatedModelName : string;
  tokenCharsPerToken : option Q;
  requestFixedFeeUSD : option Q;
  discountFactor : option Q
}.

(** The fields of [capabilities] that the policy reads; a field that is
    absent or not a number is [None]. *)
Record Capabilities := {
  typicalLatencyMs : option Q;
  jsonReliabilityScore : option Q;
  cost : option CostCapabilities
}.

(** [oid] is the identity of the object: [===] on two registrations
    compares it. Each [registerModel] allocates a new one. *)
Record RegisteredProvider := {
  oid : nat;
  modelType : string;
  provider : string;
  handler : gmap string JsValue → Settlement;
  priority : option Q;
  capabilities : option Capabilities
}.

Definition same_object (a b : RegisteredProvider) : bool :=
  Nat.eqb (oid a) (oid b).

End Provider.

(** ** core/registry.ts *)
Module Registry.
Import Provider.

(** [allocated] counts the registration objects created so far. *)
Record t := {
  modelTypeToProviders : gmap string (list RegisteredProvider);
  allocated : nat
}.

Definition empty : t := {| modelTypeToProviders := ∅; allocated := 0 |}.

Definition by_priority (a b : RegisteredProvider) : Q :=
  let ap := default 0%Q (priority a) in
  let bp := default 0%Q (priority b) in
  if Qeq_bool bp ap then 0%Q else (bp - ap)%Q.

Definition registerModel (reg : t) (modelType : string)
    (handler : gmap string JsValue → Settlement) (provider : string)
    (priority : option Q) (capabilities : option Capabilities) : t :=
  let key := modelType in
  let providers := default [] (modelTypeToProviders reg !! key) in
  let registration :=
    {| oid := allocated reg;
       modelType := key;
       handler := handler;
       provider := provider;
       priority := Some (default 0%Q priority);
       capabilities := capabilities |} in
  let providers := js_sort by_priority (providers ++ [registration]) in
  {| modelTypeToProviders := <[key := providers]> (modelTypeToProviders reg);
     allocated := S (allocated reg) |}.

Definition getProviders (reg : t) (modelType : string) : list RegisteredProvider :=
  default [] (modelTypeToProviders reg !! modelType).

Definition clear (reg : t) : t :=
  {| modelTypeToProviders := ∅; allocated := allocated reg |}.

End Registry.

(** ** The world the policy and the router run in *)

(** The values [Date.now()] and [Math.random()] return, call after call. *)
Record Env := {
  clock : nat → Z;
  random : nat → Q
}.

(** The [Router] object with the objects it owns, the global registry, and
    the number of clock and random values read so far. *)
Record World := {
  telemetry : Telemetry.t;
  circuit : CircuitBreaker.t;
  perCallTimeoutMs : Z;
  maxRetries : Z;
  sessionBudget : option Q;
  sessionSpent : Q;
  globalRegistry : Registry.t;
  ticks : nat;
  draws : nat
}.

Definition with_telemetry (tel : Telemetry.t) (w : World) : World :=
  {| telemetry := tel; circuit := circuit w;
     perCallTimeoutMs := perCallTimeoutMs w; maxRetries := maxRetries w;
     sessionBudget := sessionBudget w; sessionSpent := sessionSpent w;
     globalRegistry := globalRegistry w; ticks := ticks w; draws := draws w |}.

Definition with_circuit (cb : CircuitBreaker.t) (w : World) : World :=
  {| telemetry := telemetry w; circuit := cb;
     perCallTimeoutMs := perCallTimeoutMs w; maxRetries := maxRetries w;
     sessionBudget := sessionBudget w; sessionSpent := sessionSpent w;
     globalRegistry := globalRegistry w; ticks := ticks w; draws := draws w |}.

Definition with_sessionBudget (b : option Q) (w : World) : World :=
  {| telemetry := telemetry w; circuit := circuit w;
     perCallTimeoutMs := perCallTimeoutMs w; maxRetries := maxRetries w;
     sessionBudget := b; sessionSpent := sessionSpent w;
     globalRegistry := globalRegistry w; ticks := ticks w; draws := draws w |}.

Definition with_sessionSpent (s : Q) (w : World) : World :=
  {| telemetry := telemetry w; circuit := circuit w;
     perCallTimeoutMs := perCallTimeoutMs w; maxRetries := maxRetries w;
     sessionBudget := sessionBudget w; sessionSpent := s;
     globalRegistry := globalRegistry w; ticks := ticks w; draws := draws w |}.

Definition with_ticks (n : nat) (w : World) : World :=
  {| telemetry := telemetry w; circuit := circuit w;
     perCallTimeoutMs := perCallTimeoutMs w; maxRetries := maxRetries w;
     sessionBudget := sessionBudget w; sessionSpent := sessionSpent w;
     globalRegistry := globalRegistry w; ticks := n; draws := draws w |}.

Definition with_draws (n : nat) (w : World) : World :=
  {| telemetry := telemetry w; circuit := circuit w;
     perCallTimeoutMs := perCallTimeoutMs w; maxRetries := maxRetries w;
     sessionBudget := sessionBudget w; sessionSpent := sessionSpent w;
     globalRegistry := globalRegistry w; ticks := ticks w; draws := n |}.

(** Computations that read the environment and update the world. *)
Definition M (A : Type) : Type := Env → World → A * World.

Definition ret {A} (a : A) : M A := λ _ w, (a, w).

Definition bind {A B} (m : M A) (k : A → M B) : M B :=
  λ env w, let (a, w') := m env w in k a env w'.

Notation "x <- m ;; k" := (bind m (λ x, k))
  (at level 100, m at next level, right associativity).
Notation "m ;;; k" := (bind m (λ _, k))
  (at level 100, right associativity).

Definition get {A} (f : World → A) : M A := λ _ w, (f w, w).
Definition modify (f : World → World) : M unit := λ _ w, (tt, f w).

(** [Date.now()] *)
Definition Date_now : M Z :=
  λ env w, (clock env (ticks w), with_ticks (S (ticks w)) w).

(** [Math.random()] *)
Definition Math_random : M Q :=
  λ env w, (random env (draws w), with_draws (S (draws w)) w).

(** The methods of the two shared objects, run on the world. The clock is
    read at every call of a method that may read it. *)
Definition circuit_isOpen (provider modelType : string) : M bool :=
  now <- Date_now ;;
  cb <- get circuit ;;
  let (r, cb') := CircuitBreaker.isOpen now cb provider modelType in
  modify (with_circuit cb') ;;;
  ret r.

Definition circuit_onSuccess (provider modelType : string) : M unit :=
  cb <- get circuit ;;
  modify (with_circuit (CircuitBreaker.onSuccess cb provider modelType)).

Definition circuit_onFailure (provider modelType : string) : M unit :=
  now <- Date_now ;;
  cb <- get circuit ;;
  modify (with_circuit (CircuitBreaker.onFailure now cb provider modelType)).

Definition telemetry_record (rec : Telemetry.TelemetryRecord) : M unit :=
  tel <- get telemetry ;;
  modify (with_telemetry (Telemetry.record tel rec)).

Definition telemetry_getStats (provider modelType : string)
  : M Telemetry.TelemetryStats :=
  tel <- get telemetry ;;
  ret (Telemetry.getStats tel provider modelType).

(** ** core/policy.ts *)
Module Policy.
Import Provider.
Local Open Scope Q_scope.

Record PolicyOptions := {
  promptLength : option Q;
  hasSchema : option bool;
  promptLengthThreshold : option Q;
  jsonBiasWeight : option Q;
  latencyWeight : option Q;
  failurePenalty : option Q;
  explorationEpsilon : option Q;
  costWeight : option Q;
  expectedOutputTokens : option Q;
  sessionBudget : option Q;
  sessionSpent : option Q
}.

(** [{}] *)
Definition no_options : PolicyOptions :=
  {| promptLength := None; hasSchema := None; promptLengthThreshold := None;
     jsonBiasWeight := None; latencyWeight := None; failurePenalty := None;
     explorationEpsilon := None; costWeight := None;
     expectedOutputTokens := None; sessionBudget := None;
     sessionSpent := None |}.

Record ScoredStats := {
  p95Latency : option Z;
  successRatio : option Q;
  failureRatio : Q
}.

Record ScoredProvider := {
  provider : RegisteredProvider;
  score : Q;
  stats : ScoredStats;
  costEstimate : option Costs.CostEstimate
}.

(** The cost weight, doubled when more than 80% of the budget is used.
    The quotient is taken exactly; the code compares its double. *)
Definition effectiveCostWeight (options : PolicyOptions) : Q :=
  let costWeight := default 1 (costWeight options) in
  let sessionSpent := default 0 (sessionSpent options) in
  match sessionBudget options with
  | Some sessionBudget =>
      if truthyQ sessionBudget && Qgt_bool sessionSpent 0 then
        let budgetUsedRatio := sessionSpent / sessionBudget in
        if Qgt_bool budgetUsedRatio (8 # 10) then costWeight * 2 else costWeight
      else costWeight
  | None => costWeight
  end.

Definition isShort (options : PolicyOptions) : bool :=
  let promptLength := default 0 (promptLength options) in
  let promptLengthThreshold := default 600 (promptLengthThreshold options) in
  if Qgt_bool promptLength 0 then Qlt_bool promptLength promptLengthThreshold
  else false.

(** [caps.cost?.simulatedModelName && promptLength > 0]: the cost block
    whose estimate is taken, if any. *)
Definition cost_block (options : PolicyOptions) (caps : option Capabilities)
  : option CostCapabilities :=
  match caps with
  | Some caps =>
      match cost caps with
      | Some c =>
          if negb (String.eqb (simulatedModelName c) "")
             && Qgt_bool (default 0 (promptLength options)) 0
          then Some c else None
      | None => None
      end
  | None => None
  end.

(** The hard budget ceiling: [sessionBudget] is set and the projected
    cost exceeds what remains. The difference is taken exactly; the code
    compares with its double. *)
Definition over_budget (options : PolicyOptions) (totalUSD : Q) : bool :=
  match sessionBudget options with
  | Some sessionBudget =>
      if truthyQ sessionBudget then
        let remainingBudget := sessionBudget - default 0 (sessionSpent options) in
        Qgt_bool totalUSD remainingBudget
      else false
  | None => false
  end.

(** The part of the loop body after the cost block: the heuristics, the
    telemetry adjustments and the exploration draw. *)
Definition finish_score (modelType : string) (options : PolicyOptions)
    (p : RegisteredProvider) (score : Q)
    (costEstimate : option Costs.CostEstimate) : M ScoredProvider :=
  let caps := capabilities p in
  let score :=
    match caps with
    | Some {| typicalLatencyMs := Some lat |} =>
        if isShort options then score + 1 / Math_max 1 lat else score
    | _ => score
    end in
  let score :=
    match caps with
    | Some {| jsonReliabilityScore := Some js |} =>
        if default false (hasSchema options)
        then score + default 1 (jsonBiasWeight options) * js else score
    | _ => score
    end in
  stats <- telemetry_getStats (Provider.provider p) modelType ;;
  let failureRatio :=
    if (Telemetry.count stats >? 0)%Z
    then inject_Z (Telemetry.failures stats + Telemetry.timeouts stats)
         / inject_Z (Telemetry.count stats)
    else 0 in
  let successRatio :=
    if (Telemetry.count stats >? 0)%Z
    then Some (inject_Z (Telemetry.successes stats) / inject_Z (Telemetry.count stats))
    else None in
  let p95 := Telemetry.p95Latency stats in
  let score :=
    match p95 with
    | Some l => score - default (1 # 1000) (latencyWeight options) * inject_Z l
    | None => score
    end in
  let score :=
    if Qgt_bool failureRatio 0
    then score - default 2 (failurePenalty options) * failureRatio else score in
  r <- Math_random ;;
  let score := score + r * default (1 # 100) (explorationEpsilon options) in
  ret {| provider := p;
         score := score;
         stats := {| p95Latency := p95; successRatio := successRatio;
                     failureRatio := failureRatio |};
         costEstimate := costEstimate |}.

(** One turn of the loop over the providers: [None] is [continue]. *)
Definition score_provider (costs : Costs.PriceBook) (modelType : string)
    (options : PolicyOptions) (p : RegisteredProvider)
  : M (option ScoredProvider) :=
  isOpen <- circuit_isOpen (Provider.provider p) modelType ;;
  if isOpen then ret None
  else
    let score := 0 + default 0 (priority p) in
    match cost_block options (capabilities p) with
    | Some c =>
        r <- Math_random ;;
        let costEstimate :=
          Costs.estimateCostWithVariance costs
            {| Costs.promptChars := default 0 (promptLength options);
               Costs.expectedOutputTokens := expectedOutputTokens options;
               Costs.simulatedModelName := simulatedModelName c;
               Costs.charsPerToken := tokenCharsPerToken c;
               Costs.requestFixedFeeUSD := requestFixedFeeUSD c;
               Costs.discountFactor := discountFactor c |} r in
        let score := score - effectiveCostWeight options * Costs.totalUSD costEstimate in
        if over_budget options (Costs.totalUSD costEstimate) then ret None
        else
          s <- finish_score modelType options p score (Some costEstimate) ;;
          ret (Some s)
    | None =>
        s <- finish_score modelType options p score None ;;
        ret (Some s)
    end.

Fixpoint score_all (costs : Costs.PriceBook) (modelType : string)
    (options : PolicyOptions) (providers : list RegisteredProvider)
    (scored : list ScoredProvider) : M (list ScoredProvider) :=
  match providers with
  | [] => ret scored
  | p :: providers =>
      s <- score_provider costs modelType options p ;;
      score_all costs modelType options providers
                (match s with Some s => scored ++ [s] | None => scored end)
  end.

Definition by_score_desc (a b : ScoredProvider) : Q := score b - score a.

(** [RoutingPolicy.select] *)
Definition select (costs : Costs.PriceBook) (modelType : string)
    (providers : list RegisteredProvider) (options : PolicyOptions)
  : M (list ScoredProvider) :=
  scored <- score_all costs modelType options providers [] ;;
  ret (js_sort by_score_desc scored).

End Policy.

(** ** core/router.ts *)
Module Router.
Import Provider.

Record RouterOptions := {
  telemetryWindow : option Z;
  circuitFailureThreshold : option Z;
  circuitCoolOffMs : option Z;
  opt_perCallTimeoutMs : option Z;   (* the option perCallTimeoutMs *)
  opt_maxRetries : option Z;         (* the option maxRetries *)
  opt_sessionBudget : option Q       (* the option sessionBudget *)
}.

(** [new Router(opts)], in a process whose registry is [registry]. *)
Definition new (opts : RouterOptions) (registry : Registry.t) : World :=
  {| telemetry := Telemetry.new (default 200 (telemetryWindow opts));
     circuit := CircuitBreaker.new
       {| CircuitBreaker.failureThreshold := default 3 (circuitFailureThreshold opts);
          CircuitBreaker.coolOffMs := default 60000 (circuitCoolOffMs opts) |};
     perCallTimeoutMs := default 300000 (opt_perCallTimeoutMs opts);
     maxRetries := Z.max 0 (default 2 (opt_maxRetries opts));
     sessionBudget := opt_sessionBudget opts;
     sessionSpent := 0%Q;
     globalRegistry := registry;
     ticks := 0;
     draws := 0 |}.

(** ASCII lower case, for the [i] flag of a regular expression. *)
Definition lower (c : ascii) : ascii :=
  let n := nat_of_ascii c in
  if ((65 <=? n) && (n <=? 90))%nat then ascii_of_nat (n + 32) else c.

Fixpoint lower_string (s : string) : string :=
  match s with
  | EmptyString => EmptyString
  | String c s' => String (lower c) (lower_string s')
  end.

Fixpoint contains (needle hay : string) : bool :=
  String.prefix needle hay
  || match hay with
     | EmptyString => false
     | String _ hay' => contains needle hay'
     end.

(** [/timeout/i.test(s)] *)
Definition matches_timeout (s : string) : bool :=
  contains "timeout" (lower_string s).

Definition Z_to_string (z : Z) : string :=
  DecimalString.NilZero.string_of_int (Z.to_int z).

Definition TimeoutError (ms : Z) : JsError :=
  {| name := "TimeoutError";
     message := "Operation timed out after " ++ Z_to_string ms ++ "ms" |}.

(** [withTimeout(p, ms)]: the promise races a timer of [ms] milliseconds. *)
Definition withTimeout (p : Settlement) (ms : Z) : JsValue + JsError :=
  match p with
  | resolves v d => if d <=? Z.max 0 ms then inl v else inr (TimeoutError ms)
  | rejects e d => if d <=? Z.max 0 ms then inr e else inr (TimeoutError ms)
  | pending => inr (TimeoutError ms)
  end.

(** What [useModelWithInfo] returns. *)
Record Info := {
  result : JsValue;
  provider : string;
  costEstimate : option Costs.CostEstimate
}.

(** What it throws: an error, with the two fields the loop attaches. *)
Record Thrown := {
  error : JsError;
  attemptedProviders : option string;
  lastAttemptedProvider : option string
}.

Inductive Completion (A : Type) :=
| returns (a : A)
| throws (e : Thrown).
Arguments returns {A} a.
Arguments throws {A} e.

Definition plain_error (msg : string) : Thrown :=
  {| error := {| name := "Error"; message := msg |};
     attemptedProviders := None; lastAttemptedProvider := None |}.

Definition NoProviders (modelType : string) (providerHint : option string) : Thrown :=
  plain_error
    ("No providers registered for " ++ modelType ++
     match providerHint with
     | Some h => if negb (String.eqb h "") then " (hint=" ++ h ++ ")" else ""
     | None => ""
     end).

Definition AllUnavailable (modelType : string) : Thrown :=
  plain_error ("All providers are unavailable (circuit-open) for " ++ modelType).

(** The length of [params.prompt] when it is a string, else 0. *)
Definition derived_promptLength (params : gmap string JsValue) : Q :=
  match get_field params "prompt" with
  | JsString s => inject_Z (Z.of_nat (String.length s))
  | _ => 0%Q
  end.

(** The options object handed to the policy:
    [{ ...policyOptions, promptLength, hasSchema, sessionBudget, sessionSpent }] *)
Definition ranking_options (w : World) (params : gmap string JsValue)
    (policyOptions : Policy.PolicyOptions) : Policy.PolicyOptions :=
  {| Policy.promptLength := Some (derived_promptLength params);
     Policy.hasSchema := Some (truthy (get_field params "schema"));
     Policy.promptLengthThreshold := Policy.promptLengthThreshold policyOptions;
     Policy.jsonBiasWeight := Policy.jsonBiasWeight policyOptions;
     Policy.latencyWeight := Policy.latencyWeight policyOptions;
     Policy.failurePenalty := Policy.failurePenalty policyOptions;
     Policy.explorationEpsilon := Policy.explorationEpsilon policyOptions;
     Policy.costWeight := Policy.costWeight policyOptions;
     Policy.expectedOutputTokens := Policy.expectedOutputTokens policyOptions;
     Policy.sessionBudget := sessionBudget w;
     Policy.sessionSpent := Some (sessionSpent w) |}.

(** [scored.find(s => s.provider === rp)] *)
Definition find_scored (scored : list Policy.ScoredProvider)
    (rp : RegisteredProvider) : option Policy.ScoredProvider :=
  List.find (λ s, same_object (Policy.provider s) rp) scored.

(** The state of the retry loop when it ends without a return. *)
Record LoopEnd := {
  attempts : Z;
  lastError : option JsError
}.

(** The loop over the ranked providers. [inl] is the [return] inside the
    loop, [inr] is the loop running out or breaking. *)
Fixpoint attempt_all (modelType : string) (params : gmap string JsValue)
    (scored : list Policy.ScoredProvider) (ranked : list RegisteredProvider)
    (attempts : Z) (lastError : option JsError) : M (Info + LoopEnd) :=
  match ranked with
  | [] => ret (inr {| attempts := attempts; lastError := lastError |})
  | rp :: ranked' =>
      maxRetries <- get maxRetries ;;
      if attempts >? maxRetries
      then ret (inr {| attempts := attempts; lastError := lastError |})
      else
        let attempts := attempts + 1 in
        start <- Date_now ;;
        perCallTimeoutMs <- get perCallTimeoutMs ;;
        let paramsWithTimeout :=
          <["timeout"%string := JsNumber (inject_Z perCallTimeoutMs)]> params in
        match withTimeout (handler rp paramsWithTimeout) perCallTimeoutMs with
        | inl result =>
            finished <- Date_now ;;
            stamp <- Date_now ;;
            telemetry_record
              {| Telemetry.provider := Provider.provider rp;
                 Telemetry.modelType := modelType;
                 Telemetry.latencyMs := finished - start;
                 Telemetry.timestamp := stamp;
                 Telemetry.outcome := Telemetry.success |} ;;;
            circuit_onSuccess (Provider.provider rp) modelType ;;;
            match find_scored scored rp with
            | Some {| Policy.costEstimate := Some actualCostEstimate |} =>
                modify (λ w, with_sessionSpent
                  (sessionSpent w + Costs.totalUSD actualCostEstimate)%Q w) ;;;
                ret (inl {| result := result;
                            provider := Provider.provider rp;
                            costEstimate := Some actualCostEstimate |})
            | _ =>
                ret (inl {| result := result;
                            provider := Provider.provider rp;
                            costEstimate := None |})
            end
        | inr err =>
            finished <- Date_now ;;
            let latency := finished - start in
            let isTimeout :=
              String.eqb (name err) "TimeoutError" || matches_timeout (message err) in
            stamp <- Date_now ;;
            telemetry_record
              {| Telemetry.provider := Provider.provider rp;
                 Telemetry.modelType := modelType;
                 Telemetry.latencyMs := latency;
                 Telemetry.timestamp := stamp;
                 Telemetry.outcome :=
                   if isTimeout then Telemetry.timeout else Telemetry.failure |} ;;;
            circuit_onFailure (Provider.provider rp) modelType ;;;
            attempt_all modelType params scored ranked' attempts (Some err)
        end
  end.

(** [list.join(', ')] *)
Fixpoint join (l : list string) : string :=
  match l with
  | [] => ""
  | [s] => s
  | s :: l' => s ++ ", " ++ join l'
  end.

(** The error thrown after the loop. *)
Definition exhausted (modelType : string) (ranked : list RegisteredProvider)
    (e : LoopEnd) : Thrown :=
  let names := map Provider.provider (take (Z.to_nat (attempts e)) ranked) in
  let err :=
    match lastError e with
    | Some err => err
    | None =>
        {| name := "Error";
           message := "Failed to execute " ++ modelType ++ " with available providers" |}
    end in
  {| error := err;
     attemptedProviders := Some (join names);
     lastAttemptedProvider :=
       Some (match
               (if attempts e - 1 <? 0 then None
                else ranked !! Z.to_nat (attempts e - 1))
             with
             | Some rp =>
                 if negb (String.eqb (Provider.provider rp) "")
                 then Provider.provider rp else "unknown"
             | None => "unknown"
             end) |}.

(** The providers of the capability, narrowed to the hinted one when a
    hint is given. *)
Definition candidates_for (registry : Registry.t) (modelType : string)
    (providerHint : option string) : list RegisteredProvider :=
  let providers := Registry.getProviders registry modelType in
  match providerHint with
  | Some hint =>
      if negb (String.eqb hint "")
      then List.filter (λ p, String.eqb (Provider.provider p) hint) providers
      else providers
  | None => providers
  end.

(** [Router.useModelWithInfo] *)
Definition useModelWithInfo (costs : Costs.PriceBook) (modelType : string)
    (params : gmap string JsValue) (policyOptions : Policy.PolicyOptions)
    (providerHint : option string) : M (Completion Info) :=
  registry <- get globalRegistry ;;
  let candidates := candidates_for registry modelType providerHint in
  if (length candidates =? 0)%nat
  then ret (throws (NoProviders modelType providerHint))
  else
    w <- get id ;;
    scored <- Policy.select costs modelType candidates
                (ranking_options w params policyOptions) ;;
    if (length scored =? 0)%nat
    then ret (throws (AllUnavailable modelType))
    else
      let ranked := map Policy.provider scored in
      r <- attempt_all modelType params scored ranked 0 None ;;
      match r with
      | inl info => ret (returns info)
      | inr e => ret (throws (exhausted modelType ranked e))
      end.

Definition setBudget (budget : Q) : M unit :=
  modify (with_sessionBudget (Some budget)).

Definition resetSession : M unit :=
  modify (with_sessionSpent 0%Q).

Definition getSessionSpent : M Q := get sessionSpent.


End Router.

(** ** The baseline cost estimator ([BaselineCostEstimator])

    The three tables are object literals read by provider name; only their
    own keys are modelled, so a provider named after a property that every
    object inherits (such as [constructor]) is outside the model. *)
Module Baseline.
Local Open Scope Q_scope.

Record CallRecord := {
  group : string;
  provider : string;
  latencyMs : Q;
  success : bool;
  jsonValid : option bool;
  promptLength : Q;
  outputLength : Q;
  timestamp : Z
}.

(** [{ ...record, estimatedCost, simulatedModelName }] *)
Record CallRecordWithCost := {
  record : CallRecord;
  estimatedCost : Costs.CostEstimate;
  simulatedModelName : string
}.

Definition providerMapping : gmap string string :=
  list_to_map
    [ ("ollama-phi3-mini", "gpt-4o-mini");
      ("ollama-mistral-7b", "claude-3-5-haiku-20241022");
      ("ollama-llama3-8b", "gpt-4o-mini");
      ("ollama-nomic-embed-text", "text-embedding-3-small");
      ("ollama-all-minilm", "text-embedding-3-small") ]%string.

(** The table of [estimateOutputTokens] and of [getCharsPerToken]. *)
Definition ratios : gmap string Q :=
  list_to_map
    [ ("ollama-phi3-mini"%string, 42 # 10);
      ("ollama-mistral-7b"%string, 4 # 1);
      ("ollama-llama3-8b"%string, 38 # 10);
      ("ollama-nomic-embed-text"%string, 4 # 1);
      ("ollama-all-minilm"%string, 4 # 1) ].

Definition truthy_string (s : string) : bool :=
  match s with EmptyString => false | _ => true end.

(** [this.providerMapping[provider] || 'gpt-4o-mini'] *)
Definition simulatedModel (provider : string) : string :=
  match providerMapping !! provider with
  | Some m => if truthy_string m then m else "gpt-4o-mini"%string
  | None => "gpt-4o-mini"%string
  end.

(** [ratios[provider] || 4.0] *)
Definition ratio_of (provider : string) : Q :=
  match ratios !! provider with
  | Some r => if truthyQ r then r else 4 # 1
  | None => 4 # 1
  end.

Definition estimateOutputTokens (record : CallRecord) : Q :=
  Math_ceil (outputLength record / ratio_of (provider record)).

Definition getCharsPerToken (provider : string) : Q := ratio_of provider.

Definition estimateCostsForBaseline (costs : Costs.PriceBook)
    (baselineResults : list CallRecord) : list CallRecordWithCost :=
  map (λ record,
         let simulatedModel := simulatedModel (provider record) in
         let estimatedOutputTokens := estimateOutputTokens record in
         let estimatedCost :=
           Costs.estimateCost costs
             {| Costs.promptChars := promptLength record;
                Costs.expectedOutputTokens := Some estimatedOutputTokens;
                Costs.simulatedModelName := simulatedModel;
                Costs.charsPerToken := Some (getCharsPerToken (provider record));
                Costs.requestFixedFeeUSD := Some 0;
                Costs.discountFactor := Some 1 |} in
         {| record := record;
            estimatedCost := estimatedCost;
            simulatedModelName := simulatedModel |})
      baselineResults.

End Baseline.

(** ** A small scenario, for the concrete cases *)
Module Scenario.
Import Provider.

(** Rates of 0.00015 and 0.0006 USD per 1000 tokens for every model. *)
Definition book : Costs.PriceBook :=
{| Costs.default_rates := {| Costs.input := 15 # 100000; Costs.output := 6 # 10000 |};
   Costs.named_rates := ∅ |}.

(** A clock that shows [now] at every reading; every random draw is 0.5,
    which makes the variance factor 1. *)
Definition steady (now : Z) : Env :=
{| clock := λ _, now; random := λ _, 1 # 2 |}.

(** A handler that answers ["ok"] after 10 ms. *)
Definition answers : gmap string JsValue → Settlement :=
λ _, resolves (JsString "ok") 10.

(** A handler that fails after 50 ms. *)
Definition fails : gmap string JsValue → Settlement :=
λ _, rejects {| name := "Error"; message := "fail" |} 50.

Definition priced : Capabilities :=
{| typicalLatencyMs := Some (100 # 1);
   jsonReliabilityScore := None;
   cost := Some {| simulatedModelName := "gpt-4o-mini";
                   tokenCharsPerToken := Some (4 # 1);
                   requestFixedFeeUSD := None;
                   discountFactor := None |} |}.

(** Provider A of capability T, priority 5, with a cost block. *)
Definition provider_A : RegisteredProvider :=
{| oid := 0; modelType := "T"; provider := "A"; handler := answers;
   priority := Some (5 # 1); capabilities := Some priced |}.

(** A prompt of 400 characters, 100 expected output tokens, and a session
    budget. *)
Definition options_with_budget (budget spent : Q) : Policy.PolicyOptions :=
{| Policy.promptLength := Some (400 # 1);
   Policy.hasSchema := None;
   Policy.promptLengthThreshold := None;
   Policy.jsonBiasWeight := None;
   Policy.latencyWeight := None;
   Policy.failurePenalty := None;
   Policy.explorationEpsilon := None;
   Policy.costWeight := None;
   Policy.expectedOutputTokens := Some (100 # 1);
   Policy.sessionBudget := Some budget;
   Policy.sessionSpent := Some spent |}.

Definition no_router_options : Router.RouterOptions :=
{| Router.telemetryWindow := None;
   Router.circuitFailureThreshold := None;
   Router.circuitCoolOffMs := None;
   Router.opt_perCallTimeoutMs := None;
   Router.opt_maxRetries := None;
   Router.opt_sessionBudget := None |}.

(** A new router with the default options, no provider registered. *)
Definition fresh_world : World := Router.new no_router_options Registry.empty.

(** The registry after provider A has been registered for T. *)
Definition registry_A : Registry.t :=
Registry.registerModel Registry.empty "T" answers "A" (Some (5 # 1)) (Some priced).

(** A router over that registry with a session budget, the other options
    at their defaults (threshold 3, cool-off 60 s, 2 retries). *)
Definition world_with_budget (budget : Q) : World :=
Router.new {| Router.telemetryWindow := None;
              Router.circuitFailureThreshold := None;
              Router.circuitCoolOffMs := None;
              Router.opt_perCallTimeoutMs := None;
              Router.opt_maxRetries := None;
              Router.opt_sessionBudget := Some budget |} registry_A.

(** The same, after three failures of A at time 1 have opened its circuit. *)
Definition tripped_world (budget : Q) : World :=
let failed cb := CircuitBreaker.onFailure 1 cb "A" "T" in
with_circuit (failed (failed (failed (circuit (world_with_budget budget)))))
             (world_with_budget budget).

Definition prompt_hello : gmap string JsValue :=
{[ "prompt"%string := JsString "hello" ]}.

Definition text_hello : gmap string JsValue :=
{[ "text"%string := JsString "hello" ]}.

(** The options of a caller that names a prompt length. *)
Definition options_with_promptLength (n : Q) : Policy.PolicyOptions :=
{| Policy.promptLength := Some n;
   Policy.hasSchema := None;
   Policy.promptLengthThreshold := None;
   Policy.jsonBiasWeight := None;
   Policy.latencyWeight := None;
   Policy.failurePenalty := None;
   Policy.explorationEpsilon := None;
   Policy.costWeight := None;
   Policy.expectedOutputTokens := None;
   Policy.sessionBudget := None;
   Policy.sessionSpent := None |}.

(** A budget of a tenth of a millionth of a dollar. *)
Definition tiny_budget : Q := 1 # 10000000.

Definition unpriced (latency : Q) : Capabilities :=
{| typicalLatencyMs := Some latency; jsonReliabilityScore := None; cost := None |}.

(** The two providers of the policy test: A with priority 5 and a typical
    latency of 100 ms, B with priority 4 and 500 ms, neither with a cost
    block. *)
Definition plain_A : RegisteredProvider :=
{| oid := 0; modelType := "TEXT_SMALL"; provider := "A"; handler := answers;
   priority := Some (5 # 1); capabilities := Some (unpriced (100 # 1)) |}.

Definition plain_B : RegisteredProvider :=
{| oid := 1; modelType := "TEXT_SMALL"; provider := "B"; handler := answers;
   priority := Some (4 # 1); capabilities := Some (unpriced (500 # 1)) |}.

(** A prompt of 50 characters against a threshold of 100, no exploration. *)
Definition options_without_exploration : Policy.PolicyOptions :=
{| Policy.promptLength := Some (50 # 1);
   Policy.hasSchema := None;
   Policy.promptLengthThreshold := Some (100 # 1);
   Policy.jsonBiasWeight := None;
   Policy.latencyWeight := None;
   Policy.failurePenalty := None;
   Policy.explorationEpsilon := Some 0%Q;
   Policy.costWeight := None;
   Policy.expectedOutputTokens := None;
   Policy.sessionBudget := None;
   Policy.sessionSpent := None |}.

(** A clock that shows [now]; every random draw is [r]. *)
Definition constant (now : Z) (r : Q) : Env :=
{| clock := λ _, now; random := λ _, r |}.

(** Two providers that differ in name only, both with the cost block. *)
Definition twin_X : RegisteredProvider :=
{| oid := 0; modelType := "T"; provider := "X"; handler := answers;
   priority := Some (5 # 1); capabilities := Some priced |}.

Definition twin_Y : RegisteredProvider :=
{| oid := 1; modelType := "T"; provider := "Y"; handler := answers;
   priority := Some (5 # 1); capabilities := Some priced |}.

(** A clock that shows [now]; draw number [k] is 0, every other one 0.9. *)
Definition low_draw_at (k : nat) (now : Z) : Env :=
{| clock := λ _, now;
   random := λ i, if Nat.eqb i k then 0%Q else 9 # 10 |}.

End Scenario.

(** * Properties *)

(** ** The circuit breaker *)
Section breaker.
Import CircuitBreaker.

(** The entry a key stands for: a key never seen is closed with no failures. *)
Definition entry_of (cb : CircuitBreaker.t) (k : string) : Entry :=
  default fresh_entry (map cb !! k).

(** [onFailure] called once per element of [times], in order. *)
Definition failures (times : list Z) (cb : CircuitBreaker.t)
    (provider modelType : string) : CircuitBreaker.t :=
  foldl (λ cb now, onFailure now cb provider modelType) cb times.

Lemma onFailure_options now cb p t : options (onFailure now cb p t) = options cb.
Proof. reflexivity. Qed.

Lemma failures_options times cb p t : options (failures times cb p t) = options cb.
Proof.
  revert cb. induction times as [|now times IH]; intros cb; simpl; [done|].
  by rewrite IH.
Qed.

Lemma failures_snoc times now cb p t :
  failures (times ++ [now]) cb p t = onFailure now (failures times cb p t) p t.
Proof. unfold failures. by rewrite foldl_app. Qed.

Lemma onFailure_lookup now cb p t :
  map (onFailure now cb p t) !! key p t =
    Some (let e := entry_of cb (key p t) in
          if consecutiveFailures e + 1 >=? failureThreshold (options cb)
          then {| state := open;
                  consecutiveFailures := consecutiveFailures e + 1;
                  openedAt := Some now |}
          else {| state := state e;
                  consecutiveFailures := consecutiveFailures e + 1;
                  openedAt := openedAt e |}).
Proof. unfold onFailure. simpl. by rewrite lookup_insert_eq. Qed.

(** Below the threshold the entry stays closed and only counts. *)
Lemma failures_below times : ∀ cb p t c,
  entry_of cb (key p t) = {| state := closed; consecutiveFailures := c; openedAt := None |} →
  c + Z.of_nat (length times) < failureThreshold (options cb) →
  entry_of (failures times cb p t) (key p t) =
    {| state := closed;
       consecutiveFailures := c + Z.of_nat (length times);
       openedAt := None |}.
Proof.
  induction times as [|now times IH]; intros cb p t c He Hlt.
  - simpl in *. rewrite He. f_equal. lia.
  - simpl. rewrite (IH _ p t (c + 1)).
    + f_equal. simpl length. lia.
    + unfold entry_of. rewrite onFailure_lookup. simpl. rewrite He. simpl.
      destruct (Z.geb_spec (c + 1) (failureThreshold (options cb))) as [Hge|_];
        [simpl length in Hlt; lia | done].
    + rewrite onFailure_options. simpl length in Hlt. lia.
Qed.

(** The operations a client can apply to a breaker. *)
Inductive Op :=
| call_isOpen (now : Z) (provider modelType : string)
| call_onSuccess (provider modelType : string)
| call_onFailure (now : Z) (provider modelType : string)
| call_reset (provider modelType : string)
| call_clearAll.

Definition apply_op (cb : CircuitBreaker.t) (op : Op) : CircuitBreaker.t :=
  match op with
  | call_isOpen now p t => snd (isOpen now cb p t)
  | call_onSuccess p t => onSuccess cb p t
  | call_onFailure now p t => onFailure now cb p t
  | call_reset p t => reset cb p t
  | call_clearAll => clearAll cb
  end.

(** The breakers a client can observe: a new one, after any calls. *)
Inductive reachable (opts : CircuitOptions) : CircuitBreaker.t → Prop :=
| reachable_new : reachable opts (new opts)
| reachable_step cb op :
    reachable opts cb → reachable opts (apply_op cb op).

(** An entry that is not closed has reached the threshold: the counter is
    reset by [onSuccess] only. *)
Definition counted (cb : CircuitBreaker.t) : Prop :=
  ∀ k e, map cb !! k = Some e → state e ≠ closed →
         failureThreshold (options cb) ≤ consecutiveFailures e.

Lemma counted_step cb op : counted cb → counted (apply_op cb op).
Proof.
  intros Hc k e. destruct op as [now p t|p t|now p t|p t|]; cbn [apply_op].
  - unfold isOpen.
    destruct (map cb !! key p t) as [e0|] eqn:He0; [|by apply Hc].
    destruct (decide (state e0 = open)) as [Ho|]; [|by apply Hc].
    destruct (cooled_off (options cb) now e0); [|by apply Hc].
    simpl. destruct (decide (key p t = k)) as [->|Hne].
    + rewrite lookup_insert_eq. intros [= <-] _. simpl.
      apply (Hc _ _ He0). by rewrite Ho.
    + rewrite lookup_insert_ne by done. by apply Hc.
  - unfold onSuccess. simpl. destruct (decide (key p t = k)) as [->|Hne].
    + rewrite lookup_insert_eq. by intros [= <-].
    + rewrite lookup_insert_ne by done. by apply Hc.
  - destruct (decide (key p t = k)) as [<-|Hne].
    + rewrite onFailure_lookup. intros [= <-]. rewrite onFailure_options.
      destruct (Z.geb_spec (consecutiveFailures (entry_of cb (key p t)) + 1)
                  (failureThreshold (options cb))) as [Hge|Hlt]; simpl.
      * lia.
      * intros Hs. unfold entry_of in *.
        destruct (map cb !! key p t) as [e0|] eqn:He0; simpl in *; [|done].
        specialize (Hc _ _ He0 Hs). lia.
    + unfold onFailure. simpl. rewrite lookup_insert_ne by done. by apply Hc.
  - unfold reset. simpl. destruct (decide (key p t = k)) as [->|Hne].
    + by rewrite lookup_delete_eq.
    + rewrite lookup_delete_ne by done. by apply Hc.
  - simpl. by rewrite lookup_empty.
Qed.

Lemma apply_op_options cb op : options (apply_op cb op) = options cb.
Proof.
  destruct op as [now p t|p t|now p t|p t|]; simpl; try done.
  unfold isOpen. destruct (map cb !! key p t) as [e0|]; [|done].
  destruct (decide _); [|done]. by destruct (cooled_off _ _ _).
Qed.

Lemma reachable_counted opts cb :
  reachable opts cb → counted cb ∧ options cb = opts.
Proof.
  induction 1 as [|cb op _ [IH Ho]].
  - split; [|done]. intros k e. simpl. by rewrite lookup_empty.
  - split; [by apply counted_step|]. by rewrite apply_op_options.
Qed.

(** C3. On a fresh key, with a threshold of [t >= 1] failures: after [t]
    consecutive [onFailure] calls, the last of them at time [opened],
    [isOpen] answers true (and changes nothing) at every time before the
    cool-off has run out, in particular at once when the cool-off is
    positive; at a time when [coolOffMs] has passed since [opened],
    [isOpen] answers false and leaves the entry half-open; [onSuccess]
    then leaves it closed, with no failures counted and no opening time. *)
Theorem breaker_opens_cools_and_closes :
  ∀ (cb : CircuitBreaker.t) (provider modelType : string)
    (earlier : list Z) (opened : Z),
    map cb !! key provider modelType = None →
    failureThreshold (options cb) = Z.of_nat (length (earlier ++ [opened])) →
    let cb1 := failures (earlier ++ [opened]) cb provider modelType in
    (∀ now, now - opened < coolOffMs (options cb) →
            isOpen now cb1 provider modelType = (true, cb1)) ∧
    (0 < coolOffMs (options cb) →
     fst (isOpen opened cb1 provider modelType) = true) ∧
    (∀ now, opened ≠ 0 → coolOffMs (options cb) ≤ now - opened →
       let cb2 := snd (isOpen now cb1 provider modelType) in
       fst (isOpen now cb1 provider modelType) = false ∧
       map cb2 !! key provider modelType =
         Some {| state := half_open;
                 consecutiveFailures := failureThreshold (options cb);
                 openedAt := Some opened |} ∧
       map (onSuccess cb2 provider modelType) !! key provider modelType =
         Some {| state := closed; consecutiveFailures := 0; openedAt := None |}).
Proof.
  intros cb p t earlier opened Hfresh Hth cb1.
  assert (Hopts : options cb1 = options cb) by apply failures_options.
  assert (He1 : map cb1 !! key p t =
                Some {| state := open;
                        consecutiveFailures := failureThreshold (options cb);
                        openedAt := Some opened |}).
  { subst cb1. rewrite failures_snoc, onFailure_lookup, failures_options.
    rewrite (failures_below earlier cb p t 0).
    - simpl. rewrite length_app in Hth. simpl in Hth.
      destruct (Z.geb_spec (0 + Z.of_nat (length earlier) + 1)
                  (failureThreshold (options cb))) as [_|Hlt]; [|lia].
      do 2 f_equal. lia.
    - unfold entry_of. by rewrite Hfresh.
    - rewrite length_app in Hth. simpl in Hth. lia. }
  assert (Hbefore : ∀ now, now - opened < coolOffMs (options cb) →
                           isOpen now cb1 p t = (true, cb1)).
  { intros now Hnow. unfold isOpen. rewrite He1. simpl.
    unfold cooled_off. simpl. rewrite Hopts.
    destruct (Z.geb_spec (now - opened) (coolOffMs (options cb))); [lia|].
    by rewrite andb_false_r. }
  split; [exact Hbefore|]. split.
  - intros Hpos. rewrite Hbefore; [done|lia].
  - intros now Hnz Hnow. simpl.
    assert (Hq : isOpen now cb1 p t =
                 (false, {| options := options cb1;
                            map := <[key p t :=
                              {| state := half_open;
                                 consecutiveFailures := failureThreshold (options cb);
                                 openedAt := Some opened |}]> (map cb1) |})).
    { unfold isOpen. rewrite He1. simpl. unfold cooled_off. simpl. rewrite Hopts.
      destruct (Z.geb_spec (now - opened) (coolOffMs (options cb))); [|lia].
      unfold truthyZ. destruct (Z.eqb_spec opened 0); [done|]. done. }
    rewrite Hq. simpl. split; [done|]. split.
    + by rewrite lookup_insert_eq.
    + by rewrite lookup_insert_eq.
Qed.

(** C4. In a breaker reached by any calls from a new one, an entry that is
    half-open has counted at least the threshold, so one [onFailure] sends
    it back to open, opened at the time of that call. *)
Theorem half_open_failure_reopens :
  ∀ (opts : CircuitOptions) (cb : CircuitBreaker.t)
    (provider modelType : string) (e : Entry) (now : Z),
    reachable opts cb →
    map cb !! key provider modelType = Some e →
    state e = half_open →
    failureThreshold opts ≤ consecutiveFailures e ∧
    map (onFailure now cb provider modelType) !! key provider modelType =
      Some {| state := open;
              consecutiveFailures := consecutiveFailures e + 1;
              openedAt := Some now |}.
Proof.
  intros opts cb p t e now Hr He Hs.
  destruct (reachable_counted _ _ Hr) as [Hc Ho].
  assert (Hge : failureThreshold opts ≤ consecutiveFailures e).
  { rewrite <- Ho. apply (Hc _ _ He). by rewrite Hs. }
  split; [done|].
  rewrite onFailure_lookup. unfold entry_of. rewrite He. simpl. rewrite Ho.
  destruct (Z.geb_spec (consecutiveFailures e + 1) (failureThreshold opts)); [done|lia].
Qed.

End breaker.

(** ** Sorting *)
Section js_sort_facts.
Context {A : Type} (cmp : A → A → Q).

Lemma js_insert_Permutation x l : js_insert cmp x l ≡ₚ x :: l.
Proof.
  induction l as [|y l IH]; simpl; [done|].
  destruct (Qgt_bool (cmp x y) 0); [|done].
  rewrite IH. apply Permutation_swap.
Qed.

Lemma js_sort_Permutation l : js_sort cmp l ≡ₚ l.
Proof.
  induction l as [|x l IH]; simpl; [done|].
  by rewrite js_insert_Permutation, IH.
Qed.

Lemma js_sort_length l : length (js_sort cmp l) = length l.
Proof. by rewrite js_sort_Permutation. Qed.
End js_sort_facts.

Lemma Qgt_bool_true a b : Qgt_bool a b = true ↔ (b < a)%Q.
Proof.
  unfold Qgt_bool, Qlt_bool. rewrite negb_true_iff.
  split.
  - intros H. apply Qnot_le_lt. rewrite <- Qle_bool_iff. by rewrite H.
  - intros H. apply not_true_is_false. rewrite Qle_bool_iff. by apply Qlt_not_le.
Qed.

Lemma Qgt_bool_false a b : Qgt_bool a b = false ↔ (a <= b)%Q.
Proof.
  unfold Qgt_bool, Qlt_bool. rewrite negb_false_iff. apply Qle_bool_iff.
Qed.

(** The comparator [(a, b) => a - b] on integers. *)
Definition ascending (a b : Z) : Q := inject_Z (a - b).

Lemma ascending_gt a b : Qgt_bool (ascending a b) 0 = true ↔ b < a.
Proof.
  rewrite Qgt_bool_true. unfold ascending, Qlt. simpl. lia.
Qed.

Lemma js_insert_ascending_Sorted x l :
  Sorted Z.le l → Sorted Z.le (js_insert ascending x l).
Proof.
  induction 1 as [|y l Hs IH Hhd]; simpl.
  - by repeat constructor.
  - destruct (Qgt_bool (ascending x y) 0) eqn:Hc.
    + apply ascending_gt in Hc. constructor; [done|].
      destruct Hhd as [|z l Hyz]; simpl.
      * constructor. lia.
      * destruct (Qgt_bool (ascending x z) 0); constructor; [done|lia].
    + assert (x ≤ y).
      { destruct (Z.le_gt_cases x y) as [|Hgt]; [done|].
        apply Z.gt_lt_iff, Z.gt_lt, ascending_gt in Hgt. congruence. }
      constructor; [by constructor|by constructor].
  Qed.

Lemma js_sort_ascending_Sorted l : Sorted Z.le (js_sort ascending l).
Proof.
  induction l as [|x l IH]; simpl; [constructor|].
  by apply js_insert_ascending_Sorted.
Qed.

(** ** The telemetry window *)
Section window.
Import Telemetry.

(** The records stored for a key. *)
Definition ring (tel : Telemetry.t) (k : string) : list TelemetryRecord :=
  default [] (store tel !! k).

Definition record_key (r : TelemetryRecord) : string :=
  key (provider r) (modelType r).

(** [record] called once per element of [recs], in order. *)
Definition record_all (tel : Telemetry.t) (recs : list TelemetryRecord)
  : Telemetry.t :=
  foldl record tel recs.

(** The last [w] elements of a list. *)
Definition most_recent {A} (w : nat) (l : list A) : list A :=
  drop (length l - w) l.

Lemma record_windowSize tel r : windowSize (record tel r) = windowSize tel.
Proof. reflexivity. Qed.

Lemma record_all_windowSize recs : ∀ tel,
  windowSize (record_all tel recs) = windowSize tel.
Proof.
  induction recs as [|r recs IH]; intros tel; simpl; [done|].
  by rewrite IH.
Qed.

Lemma record_ring tel r k :
  0 ≤ windowSize tel →
  ring (record tel r) k =
    if decide (record_key r = k)
    then most_recent (Z.to_nat (windowSize tel)) (ring tel k ++ [r])
    else ring tel k.
Proof.
  intros HW. unfold ring, record. simpl. fold (record_key r).
  destruct (decide (record_key r = k)) as [<-|Hne].
  - rewrite lookup_insert_eq. simpl. unfold most_recent, splice_head.
    set (arr := default [] (store tel !! record_key r) ++ [r]).
    destruct (Z.gtb_spec (Z.of_nat (length arr)) (windowSize tel)) as [Hgt|Hle].
    + f_equal. lia.
    + replace (length arr - Z.to_nat (windowSize tel))%nat with 0%nat by lia.
      done.
  - by rewrite lookup_insert_ne.
Qed.

Lemma most_recent_snoc {A} (w : nat) (l : list A) (x : A) :
  most_recent w (most_recent w l ++ [x]) = most_recent w (l ++ [x]).
Proof.
  unfold most_recent.
  destruct (decide (length l ≤ w)%nat) as [Hle|Hgt].
  - replace (length l - w)%nat with 0%nat by lia. done.
  - rewrite length_app, length_drop. simpl.
    replace (length l - (length l - w) + 1 - w)%nat with 1%nat by lia.
    replace (length (l ++ [x]) - w)%nat with (S (length l - w)) by
      (rewrite length_app; simpl; lia).
    rewrite <- (drop_app_le _ _ (length l - w)) by lia.
    by rewrite drop_drop, Nat.add_1_r.
Qed.

Lemma most_recent_length {A} (w : nat) (l : list A) :
  length (most_recent w l) = Nat.min w (length l).
Proof. unfold most_recent. rewrite length_drop. lia. Qed.

Lemma record_all_snoc tel recs r :
  record_all tel (recs ++ [r]) = record (record_all tel recs) r.
Proof. unfold record_all. by rewrite foldl_app. Qed.

(** C5. After any sequence of [record] calls on a telemetry of window
    size [W >= 0], the ring of every key holds at most [W] records, and it
    holds exactly the most recent [W] of the records made for that key
    (all of them when there are fewer): the oldest are dropped from the
    head. *)
Theorem telemetry_window_keeps_most_recent :
  ∀ (W : Z) (recs : list TelemetryRecord) (k : string),
    0 ≤ W →
    let tel := record_all (Telemetry.new W) recs in
    let mine := filter (λ r, record_key r = k) recs in
    Z.of_nat (length (ring tel k)) ≤ W ∧
    ring tel k = most_recent (Z.to_nat W) mine ∧
    (W ≤ Z.of_nat (length mine) → Z.of_nat (length (ring tel k)) = W).
Proof.
  intros W recs k HW. simpl.
  assert (Hring : ring (record_all (Telemetry.new W) recs) k =
                  most_recent (Z.to_nat W) (filter (λ r, record_key r = k) recs)).
  { induction recs as [|r recs IH] using rev_ind.
    - unfold ring. simpl. by rewrite lookup_empty.
    - rewrite record_all_snoc, record_ring
        by (rewrite record_all_windowSize; simpl; lia).
      rewrite record_all_windowSize. simpl windowSize.
      rewrite filter_app, IH.
      rewrite filter_cons, filter_nil.
      destruct (decide (record_key r = k)) as [Heq|Hne].
      + apply most_recent_snoc.
      + by rewrite app_nil_r. }
  rewrite Hring, most_recent_length. repeat split; lia.
Qed.

End window.

(** ** The percentiles *)
Section percentiles.
Import Telemetry.

(** [clamp(x, lo, hi)] *)
Definition clamp (x lo hi : Z) : Z := Z.max lo (Z.min x hi).

(** The index of the percentile of rank [p] among [n] sorted values. *)
Definition rank_index (p : Q) (n : Z) : Z :=
  clamp (Qfloor (p * inject_Z (n - 1))) 0 (n - 1).

Lemma percentile_rank_index (sorted : list Z) (p : Q) :
  sorted ≠ [] →
  percentile sorted p = sorted !! Z.to_nat (rank_index p (Z.of_nat (length sorted))).
Proof.
  intros Hne. unfold percentile, rank_index, clamp.
  destruct sorted as [|x sorted]; [done|].
  destruct (Z.eqb_spec (Z.of_nat (length (x :: sorted))) 0) as [H0|_];
    [simpl in H0; lia|].
  f_equal. f_equal. simpl length. lia.
Qed.

Lemma sorted_latencies_unique (arr : list TelemetryRecord) (sorted : list Z) :
  Sorted Z.le sorted → sorted ≡ₚ map latencyMs arr →
  sorted_latencies arr = sorted.
Proof.
  intros Hs Hp. apply (Sorted_unique Z.le).
  - apply js_sort_ascending_Sorted.
  - done.
  - unfold sorted_latencies. fold ascending.
    by rewrite (js_sort_Permutation ascending), Hp.
Qed.

(** C6. [getStats] answers no percentile for an empty window. For a
    window of [n > 0] records, its p50 and p95 are the elements of the
    ascending-sorted latencies at the indices
    [clamp(floor(p * (n - 1)), 0, n - 1)] for [p] = 0.5 and 0.95. For a
    window whose latencies are 10, 20, ..., 100 in any order, the p50 lies
    in [40, 50] and the p95 in [90, 100]. *)
Theorem getStats_percentiles :
  ∀ (tel : Telemetry.t) (p t : string),
    let arr := ring tel (key p t) in
    let n := Z.of_nat (length arr) in
    let stats := getStats tel p t in
    (n = 0 → p50Latency stats = None ∧ p95Latency stats = None) ∧
    (∀ sorted : list Z,
       0 < n → Sorted Z.le sorted → sorted ≡ₚ map latencyMs arr →
       p50Latency stats = sorted !! Z.to_nat (rank_index (5 # 10) n) ∧
       p95Latency stats = sorted !! Z.to_nat (rank_index (95 # 100) n)) ∧
    (map latencyMs arr ≡ₚ [10; 20; 30; 40; 50; 60; 70; 80; 90; 100] →
     ∃ a b, p50Latency stats = Some a ∧ 40 ≤ a ≤ 50 ∧
            p95Latency stats = Some b ∧ 90 ≤ b ≤ 100).
Proof.
  intros tel p t arr n stats.
  assert (Hgen : ∀ sorted : list Z,
    0 < n → Sorted Z.le sorted → sorted ≡ₚ map latencyMs arr →
    p50Latency stats = sorted !! Z.to_nat (rank_index (5 # 10) n) ∧
    p95Latency stats = sorted !! Z.to_nat (rank_index (95 # 100) n)).
  { intros sorted Hn Hs Hp. subst stats. unfold getStats.
    fold (ring tel (key p t)). fold arr. fold n.
    destruct (Z.eqb_spec n 0) as [H0|_]; [lia|]. simpl.
    rewrite (sorted_latencies_unique arr sorted Hs Hp).
    assert (Hlen : Z.of_nat (length sorted) = n).
    { subst n. by rewrite Hp, length_map. }
    assert (sorted ≠ []) by (intros ->; simpl in Hlen; lia).
    rewrite !percentile_rank_index by done. by rewrite Hlen. }
  split; [|split; [exact Hgen|]].
  - intros Hn. subst stats. unfold getStats.
    fold (ring tel (key p t)). fold arr. fold n. by rewrite Hn.
  - intros Hp.
    assert (Hn : n = 10).
    { subst n. rewrite <- (length_map latencyMs), Hp. done. }
    destruct (Hgen [10; 20; 30; 40; 50; 60; 70; 80; 90; 100]) as [H50 H95].
    + lia.
    + repeat constructor; lia.
    + done.
    + exists 50, 90. rewrite H50, H95, Hn. repeat split; done.
Qed.

End percentiles.

(** ** Concrete cases of the breaker and of the window *)
Section component_cases.

(** The breaker of the unit test: threshold 2, cool-off 50 ms. *)
Definition test_breaker : CircuitBreaker.t :=
CircuitBreaker.new {| CircuitBreaker.failureThreshold := 2;
                      CircuitBreaker.coolOffMs := 50 |}.

(** Two failures at 100 and 200 ms open the breaker; it is open at 200 ms
    and no longer at 260 ms. *)
Lemma breaker_opens_cools_and_closes_witness :
let cb1 := failures [100; 200] test_breaker "prov" "T" in
fst (CircuitBreaker.isOpen 200 cb1 "prov" "T") = true ∧
fst (CircuitBreaker.isOpen 260 cb1 "prov" "T") = false ∧
entry_of (CircuitBreaker.onSuccess
            (snd (CircuitBreaker.isOpen 260 cb1 "prov" "T")) "prov" "T")
         (CircuitBreaker.key "prov" "T") = CircuitBreaker.fresh_entry.
Proof.
destruct (breaker_opens_cools_and_closes test_breaker "prov" "T" [100] 200)
  as (_ & Hnow & Hlater).
- reflexivity.
- reflexivity.
- split; [apply Hnow; reflexivity|].
  destruct (Hlater 260) as (Hfalse & _ & Hclosed).
  + discriminate.
  + simpl. lia.
  + split; [exact Hfalse|]. unfold entry_of. simpl in Hclosed |- *.
    rewrite Hclosed. reflexivity.
Defined.

(** The same breaker after the two failures and a query at 260 ms. *)
Definition half_open_breaker : CircuitBreaker.t :=
apply_op
  (apply_op
     (apply_op test_breaker (call_onFailure 100 "prov" "T"))
     (call_onFailure 200 "prov" "T"))
  (call_isOpen 260 "prov" "T").

(** A failure at 300 ms re-opens it, with 3 failures counted. *)
Lemma half_open_failure_reopens_witness :
CircuitBreaker.map (CircuitBreaker.onFailure 300 half_open_breaker "prov" "T")
  !! CircuitBreaker.key "prov" "T" =
Some {| CircuitBreaker.state := CircuitBreaker.open;
        CircuitBreaker.consecutiveFailures := 3;
        CircuitBreaker.openedAt := Some 300 |}.
Proof.
apply (half_open_failure_reopens
         {| CircuitBreaker.failureThreshold := 2; CircuitBreaker.coolOffMs := 50 |}
         half_open_breaker "prov" "T"
         {| CircuitBreaker.state := CircuitBreaker.half_open;
            CircuitBreaker.consecutiveFailures := 2;
            CircuitBreaker.openedAt := Some 200 |} 300).
- unfold half_open_breaker. do 3 apply reachable_step. apply reachable_new.
- vm_compute. reflexivity.
- reflexivity.
Defined.

Definition sample (latency : Z) : Telemetry.TelemetryRecord :=
{| Telemetry.provider := "p"; Telemetry.modelType := "T";
   Telemetry.latencyMs := latency; Telemetry.timestamp := 0;
   Telemetry.outcome := Telemetry.success |}.

(** A window of 2 keeps the last two of three records. *)
Lemma telemetry_window_keeps_most_recent_witness :
ring (record_all (Telemetry.new 2) [sample 10; sample 20; sample 30])
     (Telemetry.key "p" "T") = [sample 20; sample 30].
Proof.
destruct (telemetry_window_keeps_most_recent
            2 [sample 10; sample 20; sample 30] (Telemetry.key "p" "T"))
  as (_ & Hring & _).
- lia.
- rewrite Hring. reflexivity.
Defined.

End component_cases.

(** ** The cost estimator *)
Section estimator.
Import Costs.
Local Open Scope Q_scope.

















End estimator.

(** ** The ranking *)
Section ranking.
Import Provider Policy.

(** The world after a ranking: only the breaker and the two read
    positions can differ. *)
Definition touched (cb : CircuitBreaker.t) (n d : nat) (w : World) : World :=
  with_draws d (with_ticks n (with_circuit cb w)).

(** No entry for the key is open. *)
Definition not_open (cb : CircuitBreaker.t) (k : string) : Prop :=
  ∀ e, CircuitBreaker.map cb !! k = Some e → CircuitBreaker.state e ≠ CircuitBreaker.open.

Definition half_opened (e : CircuitBreaker.Entry) : CircuitBreaker.Entry :=
  {| CircuitBreaker.state := CircuitBreaker.half_open;
     CircuitBreaker.consecutiveFailures := CircuitBreaker.consecutiveFailures e;
     CircuitBreaker.openedAt := CircuitBreaker.openedAt e |}.

(** [cb'] comes from [cb] by cool-off promotions only: every entry is as
    it was, or it was open, its cool-off had run out at one of the clock
    readings [lo .. hi - 1], and it is now half-open. *)
Definition promoted_from (env : Env) (lo hi : nat)
    (cb cb' : CircuitBreaker.t) : Prop :=
  CircuitBreaker.options cb' = CircuitBreaker.options cb ∧
  ∀ k,
    CircuitBreaker.map cb' !! k = CircuitBreaker.map cb !! k ∨
    ∃ e i,
      CircuitBreaker.map cb !! k = Some e ∧
      CircuitBreaker.state e = CircuitBreaker.open ∧
      (lo ≤ i < hi)%nat ∧
      CircuitBreaker.cooled_off (CircuitBreaker.options cb) (clock env i) e = true ∧
      CircuitBreaker.map cb' !! k = Some (half_opened e).

Lemma promoted_from_refl env lo cb : promoted_from env lo lo cb cb.
Proof. split; [done|]. intros k. by left. Qed.

Lemma isOpen_cases now cb p t :
  CircuitBreaker.isOpen now cb p t = (true, cb) ∧
    (∃ e, CircuitBreaker.map cb !! CircuitBreaker.key p t = Some e ∧
          CircuitBreaker.state e = CircuitBreaker.open ∧
          CircuitBreaker.cooled_off (CircuitBreaker.options cb) now e = false)
  ∨ CircuitBreaker.isOpen now cb p t = (false, cb) ∧
    not_open cb (CircuitBreaker.key p t)
  ∨ ∃ e, CircuitBreaker.map cb !! CircuitBreaker.key p t = Some e ∧
         CircuitBreaker.state e = CircuitBreaker.open ∧
         CircuitBreaker.cooled_off (CircuitBreaker.options cb) now e = true ∧
         CircuitBreaker.isOpen now cb p t =
           (false, {| CircuitBreaker.options := CircuitBreaker.options cb;
                      CircuitBreaker.map :=
                        <[CircuitBreaker.key p t := half_opened e]>
                          (CircuitBreaker.map cb) |}).
Proof.
  unfold CircuitBreaker.isOpen, not_open.
  destruct (CircuitBreaker.map cb !! CircuitBreaker.key p t) as [e|] eqn:He.
  - destruct (decide (CircuitBreaker.state e = CircuitBreaker.open)) as [Ho|Hn].
    + destruct (CircuitBreaker.cooled_off _ now e) eqn:Hc.
      * right. right. by exists e.
      * left. split; [done|]. by exists e.
    + right. left. split; [done|]. by intros e' [= <-].
  - right. left. split; [done|]. by intros e' [=].
Qed.

Lemma isOpen_false_not_open now cb p t :
  fst (CircuitBreaker.isOpen now cb p t) = false →
  not_open (snd (CircuitBreaker.isOpen now cb p t)) (CircuitBreaker.key p t).
Proof.
  destruct (isOpen_cases now cb p t) as [[-> _]|[[-> Hn]|(e & _ & _ & _ & ->)]];
    simpl; [done|done|].
  intros _ e'. simpl. rewrite lookup_insert_eq. by intros [= <-].
Qed.

Lemma isOpen_keeps_not_open now cb p t k :
  not_open cb k → not_open (snd (CircuitBreaker.isOpen now cb p t)) k.
Proof.
  intros Hk.
  destruct (isOpen_cases now cb p t) as [[-> _]|[[-> Hn]|(e & _ & _ & _ & ->)]];
    simpl; [done|done|].
  intros e'. simpl. destruct (decide (CircuitBreaker.key p t = k)) as [<-|Hne].
  - rewrite lookup_insert_eq. by intros [= <-].
  - rewrite lookup_insert_ne by done. apply Hk.
Qed.

Lemma isOpen_promoted env lo hi cb cb' p t :
  (lo ≤ hi)%nat →
  promoted_from env lo hi cb cb' →
  promoted_from env lo (S hi) cb
    (snd (CircuitBreaker.isOpen (clock env hi) cb' p t)).
Proof.
  intros Hlo [Hopts Hmap].
  assert (Hweak : promoted_from env lo (S hi) cb cb').
  { split; [done|]. intros k. destruct (Hmap k) as [Heq|(e & i & ? & ? & ? & ? & ?)].
    - by left.
    - right. exists e, i. repeat split; try done; lia. }
  destruct (isOpen_cases (clock env hi) cb' p t)
    as [[-> _]|[[-> Hn]|(e & He & Ho & Hc & ->)]]; simpl; [done|done|].
  split; [done|]. intros k. simpl.
  destruct (decide (CircuitBreaker.key p t = k)) as [<-|Hne].
  - rewrite lookup_insert_eq. right. exists e, hi.
    destruct (Hmap (CircuitBreaker.key p t)) as [Heq|(e0 & i & _ & _ & _ & _ & He')].
    + rewrite <- Heq, <- Hopts. repeat split; try done; lia.
    + rewrite He in He'. injection He' as ->. done.
  - rewrite lookup_insert_ne by done. destruct Hweak as [_ Hw]. apply Hw.
Qed.

(** What a scored candidate guarantees. *)
Definition within_budget (options : PolicyOptions) (s : ScoredProvider) : Prop :=
  ∀ ce, costEstimate s = Some ce → over_budget options (Costs.totalUSD ce) = false.

(** The parameters [select] hands to the estimator for a cost block. *)
Definition estimate_params (options : PolicyOptions) (c : CostCapabilities)
  : Costs.CostEstimateParams :=
{| Costs.promptChars := default 0%Q (promptLength options);
   Costs.expectedOutputTokens := expectedOutputTokens options;
   Costs.simulatedModelName := simulatedModelName c;
   Costs.charsPerToken := tokenCharsPerToken c;
   Costs.requestFixedFeeUSD := requestFixedFeeUSD c;
   Costs.discountFactor := discountFactor c |}.

(** A cost estimate a candidate carries is the estimator's, for the cost
    block of its provider and one random draw. *)
Definition estimated (costs : Costs.PriceBook) (options : PolicyOptions)
    (env : Env) (s : ScoredProvider) : Prop :=
∀ ce, costEstimate s = Some ce →
  ∃ c i, cost_block options (capabilities (provider s)) = Some c ∧
         ce = Costs.estimateCostWithVariance costs (estimate_params options c)
                (random env i).

Definition well_scored (costs : Costs.PriceBook) (options : PolicyOptions)
    (env : Env) (s : ScoredProvider) : Prop :=
within_budget options s ∧ estimated costs options env s.

Lemma finish_score_spec t options p score ce env w :
  ∃ s, finish_score t options p score ce env w = (s, with_draws (S (draws w)) w) ∧
       provider s = p ∧ costEstimate s = ce.
Proof.
  unfold finish_score, bind, ret, telemetry_getStats, get, Math_random.
  eexists. split; [reflexivity|]. done.
Qed.

Lemma circuit_isOpen_run p t env w :
  circuit_isOpen p t env w =
    (fst (CircuitBreaker.isOpen (clock env (ticks w)) (circuit w) p t),
     with_circuit (snd (CircuitBreaker.isOpen (clock env (ticks w)) (circuit w) p t))
                  (with_ticks (S (ticks w)) w)).
Proof.
  unfold circuit_isOpen, bind, Date_now, get, modify, ret. simpl.
  by destruct (CircuitBreaker.isOpen _ _ _ _).
Qed.

Lemma score_provider_spec costs t options p env w :
  let r := CircuitBreaker.isOpen (clock env (ticks w)) (circuit w)
             (Provider.provider p) t in
  ∃ o d,
    score_provider costs t options p env w =
      (o, touched (snd r) (S (ticks w)) d w) ∧
    (draws w ≤ d)%nat ∧
    match o with
    | Some s => fst r = false ∧ provider s = p ∧ well_scored costs options env s
    | None => True
    end.
Proof.
  intros r. unfold score_provider. unfold bind at 1.
  rewrite circuit_isOpen_run. fold r.
  destruct r as [b cb']. cbn [fst snd].
  set (w1 := with_circuit cb' (with_ticks (S (ticks w)) w)).
  destruct b; cbv beta iota.
  - exists None, (draws w). split; [|split; [lia|done]].
    unfold ret, touched, w1. by destruct w.
  - destruct (cost_block options (capabilities p)) as [c|] eqn:Hblock.
    + unfold bind at 1. unfold Math_random. cbv beta iota.
      set (w2 := with_draws (S (draws w1)) w1).
      match goal with
      | |- context [over_budget options ?x] => destruct (over_budget options x) eqn:Hb
      end.
      * exists None, (S (draws w)). split; [|split; [lia|done]].
        unfold ret, touched, w2, w1. by destruct w.
      * unfold bind.
        match goal with
        | |- context [finish_score t options p ?s ?ce env w2] =>
            destruct (finish_score_spec t options p s ce env w2) as (sp & Hsp & Hp & Hce);
            rewrite Hsp
        end.
        exists (Some sp), (S (S (draws w))). split; [|split; [lia|]].
        -- unfold ret, touched, w2, w1. by destruct w.
        -- split; [done|]. split; [done|]. split.
           ++ intros ce. rewrite Hce. intros [= <-]. exact Hb.
           ++ intros ce. rewrite Hce, Hp. intros [= <-].
              exists c, (draws w1). by split.
    + unfold bind.
      destruct (finish_score_spec t options p
                  (0 + default 0 (priority p))%Q None env w1) as (sp & Hsp & Hp & Hce).
      rewrite Hsp.
      exists (Some sp), (S (draws w)). split; [|split; [lia|]].
      * unfold ret, touched, w1. by destruct w.
      * split; [done|]. split; [done|]. split; intros ce; by rewrite Hce.
Qed.

Lemma touched_touched cb n d cb' n' d' w :
  touched cb n d (touched cb' n' d' w) = touched cb n d w.
Proof. by destruct w. Qed.

(** The key of a scored candidate. *)
Definition circuit_key (t : string) (s : ScoredProvider) : string :=
  CircuitBreaker.key (Provider.provider (provider s)) t.

(** The loop of [select], started at clock reading [ticks w]: the breaker
    [cb0] it was entered with at reading [lo] is kept as a reference. *)
Lemma score_all_spec costs t options env cb0 lo providers :
  ∀ scored w,
    (lo ≤ ticks w)%nat →
    promoted_from env lo (ticks w) cb0 (circuit w) →
    ∃ out cb' d,
      score_all costs t options providers scored env w =
        (scored ++ out, touched cb' (ticks w + length providers) d w) ∧
      (draws w ≤ d)%nat ∧
      promoted_from env lo (ticks w + length providers) cb0 cb' ∧
      (∀ k, not_open (circuit w) k → not_open cb' k) ∧
      map provider out ⊆+ providers ∧
      Forall (λ s, well_scored costs options env s ∧
                   not_open cb' (circuit_key t s)) out.
Proof.
  induction providers as [|p providers IH]; intros scored w Hlo Hprom.
  - exists [], (circuit w), (draws w). simpl.
    rewrite app_nil_r, Nat.add_0_r. unfold ret, touched.
    split; [by destruct w|]. split; [lia|]. split; [done|]. split; [done|].
    split; constructor.
  - simpl score_all. unfold bind at 1.
    destruct (score_provider_spec costs t options p env w) as (o & d1 & Hrun & Hd1 & Ho).
    rewrite Hrun.
    set (cb1 := snd (CircuitBreaker.isOpen (clock env (ticks w)) (circuit w)
                       (Provider.provider p) t)) in *.
    set (w1 := touched cb1 (S (ticks w)) d1 w).
    assert (Hprom1 : promoted_from env lo (ticks w1) cb0 (circuit w1)).
    { unfold w1, touched. simpl. by apply isOpen_promoted. }
    assert (Hlo1 : (lo ≤ ticks w1)%nat) by (unfold w1, touched; simpl; lia).
    destruct (IH (match o with Some s => scored ++ [s] | None => scored end)
                 w1 Hlo1 Hprom1)
      as (out & cb' & d & Hrest & Hd & Hprom' & Hmono & Hsub & Hall).
    rewrite Hrest.
    exists (match o with Some s => s :: out | None => out end), cb', d.
    replace (ticks w1 + length providers)%nat
      with (ticks w + length (p :: providers))%nat in *
      by (unfold w1, touched; simpl; lia).
    assert (Hmono1 : ∀ k, not_open (circuit w) k → not_open cb' k).
    { intros k Hk. apply Hmono. unfold w1, touched. simpl.
      by apply isOpen_keeps_not_open. }
    split; [|split; [|split; [|split; [|split]]]].
    + unfold w1. rewrite touched_touched. f_equal.
      destruct o; [|done]. by rewrite <- app_assoc.
    + unfold w1, touched in Hd. simpl in Hd. lia.
    + done.
    + done.
    + destruct o as [s|].
      * destruct Ho as (_ & Hp & _). simpl. rewrite Hp. by apply submseteq_skip.
      * by apply submseteq_cons.
    + destruct o as [s|]; [|done].
      destruct Ho as (Hfalse & Hp & Hb).
      constructor; [|done]. split; [done|].
      apply Hmono. unfold w1, touched, circuit_key. simpl. rewrite Hp.
      by apply isOpen_false_not_open.
Qed.

Lemma select_spec costs t options providers env w :
  ∃ scored cb' d,
    select costs t providers options env w =
      (js_sort by_score_desc scored,
       touched cb' (ticks w + length providers) d w) ∧
    (draws w ≤ d)%nat ∧
    promoted_from env (ticks w) (ticks w + length providers) (circuit w) cb' ∧
    map provider scored ⊆+ providers ∧
    Forall (λ s, well_scored costs options env s ∧
                 not_open cb' (circuit_key t s)) scored.
Proof.
  destruct (score_all_spec costs t options env (circuit w) (ticks w) providers [] w)
    as (out & cb' & d & Hrun & Hd & Hprom & _ & Hsub & Hall).
  - done.
  - apply promoted_from_refl.
  - exists out, cb', d. unfold select, bind. rewrite Hrun. simpl. done.
Qed.

Lemma over_budget_false options total budget :
Policy.sessionBudget options = Some budget → ¬ (budget == 0)%Q →
over_budget options total = false →
(total <= budget - default 0 (Policy.sessionSpent options))%Q.
Proof.
intros Hb Hnz. unfold over_budget. rewrite Hb.
assert (Ht : truthyQ budget = true).
{ unfold truthyQ. apply negb_true_iff, not_true_is_false. by rewrite Qeq_bool_iff. }
rewrite Ht. by rewrite Qgt_bool_false.
Qed.

(** What the ranking does enforce. Every candidate [select] returns is one
    of the providers it was given, and
    - its circuit is not open once [select] has returned: if it was open
      before, its cool-off had run out at one of the clock readings of the
      call, and the query has left it half-open;
    - when [sessionBudget] is set and is not 0, a cost estimate it carries
      is at most [sessionBudget - sessionSpent], the subtraction and the
      comparison taken exactly.
    A [sessionBudget] of 0 is left out: it is not enforced. *)
Theorem select_excludes_open_and_over_budget :
∀ (costs : Costs.PriceBook) (t : string) (providers : list RegisteredProvider)
  (options : PolicyOptions) (env : Env) (w : World) (s : ScoredProvider),
  let ranked := fst (select costs t providers options env w) in
  let w' := snd (select costs t providers options env w) in
  s ∈ ranked →
  provider s ∈ providers ∧
  not_open (circuit w') (circuit_key t s) ∧
  (∀ e, CircuitBreaker.map (circuit w) !! circuit_key t s = Some e →
        CircuitBreaker.state e = CircuitBreaker.open →
        ∃ i, (ticks w ≤ i < ticks w')%nat ∧
             CircuitBreaker.cooled_off (CircuitBreaker.options (circuit w))
               (clock env i) e = true) ∧
  (∀ budget ce,
     Policy.sessionBudget options = Some budget → ¬ (budget == 0)%Q →
     costEstimate s = Some ce →
     (Costs.totalUSD ce <= budget - default 0 (Policy.sessionSpent options))%Q).
Proof.
intros costs t providers options env w s.
destruct (select_spec costs t options providers env w)
  as (scored & cb' & d & Hrun & _ & [_ Hprom] & Hsub & Hall).
rewrite Hrun. simpl. intros Hin.
rewrite (js_sort_Permutation by_score_desc scored) in Hin.
rewrite Forall_forall in Hall. destruct (Hall s Hin) as [[Hbudget _] Hnot].
split; [|split; [exact Hnot|split]].
- apply (elem_of_submseteq (map provider scored)); [|done].
  change (provider s ∈ provider <$> scored). by apply list_elem_of_fmap_2.
- intros e He Ho.
  destruct (Hprom (circuit_key t s)) as [Heq|(e0 & i & He0 & _ & Hi & Hc & _)].
  + rewrite He in Heq. by destruct (Hnot e Heq).
  + rewrite He in He0. injection He0 as <-. by exists i.
- intros budget ce Hb Hnz Hce. apply over_budget_false; [done|done|].
  by apply Hbudget.
Qed.

End ranking.

(** ** Concrete cases of the ranking *)
Section ranking_cases.
Import Provider Policy Scenario.

(** C1. A session budget of 0 is configured and not enforced. With a
    budget of 0 and nothing spent, [select] returns provider A although its
    estimate of 0.000075 USD exceeds the 0 USD that remain: the guard
    [if (sessionBudget)] takes the number 0 for an absent budget. The
    ceiling itself works on the same input: with a budget of 0.0000001 USD,
    or of -1 USD, A is excluded. *)
Theorem select_ignores_zero_budget :
let ranked budget := fst (select book "T" [provider_A] (options_with_budget budget 0)
                            (steady 1000) fresh_world) in
(∃ s ce, ranked 0%Q = [s] ∧
         Policy.sessionBudget (options_with_budget 0 0) = Some 0%Q ∧
         costEstimate s = Some ce ∧
         (0 - 0 < Costs.totalUSD ce)%Q) ∧
ranked tiny_budget = [] ∧
ranked (- (1))%Q = [].
Proof.
vm_compute. split; [|split; reflexivity].
eexists. eexists.
split; [reflexivity|]. split; [reflexivity|]. split; reflexivity.
Qed.

(** With a budget of 1 USD, provider A is returned, within the budget. *)
Lemma select_excludes_open_and_over_budget_witness :
∃ s, s ∈ fst (select book "T" [provider_A] (options_with_budget 1 0)
                (steady 1000) fresh_world) ∧
     provider s ∈ [provider_A] ∧
     ∀ ce, costEstimate s = Some ce → (Costs.totalUSD ce <= 1 - 0)%Q.
Proof.
assert (Hin : ∃ s, s ∈ fst (select book "T" [provider_A] (options_with_budget 1 0)
                              (steady 1000) fresh_world)).
{ vm_compute. eexists. constructor. }
destruct Hin as [s Hs]. exists s. split; [exact Hs|].
destruct (select_excludes_open_and_over_budget
            book "T" [provider_A] (options_with_budget 1 0)
            (steady 1000) fresh_world s Hs) as (Hp & _ & _ & Hb).
split; [exact Hp|].
intros ce Hce. apply (Hb 1%Q ce); [reflexivity| |exact Hce].
intros H. vm_compute in H. discriminate H.
Defined.

End ranking_cases.

(** ** Determinism of the ranking *)
Section determinism.
Import Provider Policy.

(** Two scored candidates that agree up to the representation of the score. *)
Definition same_rank (a b : ScoredProvider) : Prop :=
provider a = provider b ∧ (score a == score b)%Q ∧
stats a = stats b ∧ costEstimate a = costEstimate b.

Lemma Qgt_bool_compat x y : (x == y)%Q → Qgt_bool x 0 = Qgt_bool y 0.
Proof.
intros Heq. destruct (Qgt_bool y 0) eqn:Hy.
- apply Qgt_bool_true. apply Qgt_bool_true in Hy. by rewrite Heq.
- apply Qgt_bool_false. apply Qgt_bool_false in Hy. by rewrite Heq.
Qed.

Lemma by_score_desc_compat a a' b b' :
same_rank a a' → same_rank b b' →
Qgt_bool (by_score_desc a b) 0 = Qgt_bool (by_score_desc a' b') 0.
Proof.
intros (_ & Ha & _) (_ & Hb & _). apply Qgt_bool_compat.
unfold by_score_desc. by rewrite Ha, Hb.
Qed.

Lemma js_insert_same_rank x x' l l' :
same_rank x x' → Forall2 same_rank l l' →
Forall2 same_rank (js_insert by_score_desc x l) (js_insert by_score_desc x' l').
Proof.
intros Hx Hl. induction Hl as [|y y' l l' Hy Hl IH]; simpl.
- constructor; [done|constructor].
- rewrite (by_score_desc_compat x x' y y' Hx Hy).
  destruct (Qgt_bool (by_score_desc x' y') 0).
  + constructor; [done|exact IH].
  + constructor; [done|]. constructor; done.
Qed.

Lemma js_sort_same_rank l l' :
Forall2 same_rank l l' →
Forall2 same_rank (js_sort by_score_desc l) (js_sort by_score_desc l').
Proof.
induction 1 as [|x x' l l' Hx Hl IH]; simpl; [constructor|].
by apply js_insert_same_rank.
Qed.

Lemma same_rank_providers l l' :
Forall2 same_rank l l' → map provider l = map provider l'.
Proof.
induction 1 as [|x x' l l' (Hx & _) Hl IH]; simpl; [done|]. by rewrite Hx, IH.
Qed.

(** The exploration term is switched off. *)
Definition no_exploration (options : PolicyOptions) : Prop :=
(default (1 # 100) (explorationEpsilon options) == 0)%Q.

Lemma finish_score_deterministic t options p base ce env1 env2 w :
no_exploration options →
snd (finish_score t options p base ce env1 w) =
  snd (finish_score t options p base ce env2 w) ∧
same_rank (fst (finish_score t options p base ce env1 w))
          (fst (finish_score t options p base ce env2 w)).
Proof.
intros Heps. unfold finish_score, telemetry_getStats, bind, ret, get, Math_random.
cbv beta iota zeta delta [fst snd same_rank score provider stats costEstimate].
split; [done|]. split; [done|]. split; [|done].
unfold no_exploration in Heps. by rewrite Heps, !Qmult_0_r.
Qed.

Lemma score_provider_no_cost costs t options p env w :
cost_block options (capabilities p) = None →
score_provider costs t options p env w =
  let r := CircuitBreaker.isOpen (clock env (ticks w)) (circuit w)
             (Provider.provider p) t in
  let w1 := with_circuit (snd r) (with_ticks (S (ticks w)) w) in
  if fst r then (None, w1)
  else (Some (fst (finish_score t options p (0 + default 0 (priority p))%Q None env w1)),
        snd (finish_score t options p (0 + default 0 (priority p))%Q None env w1)).
Proof.
intros Hblock. unfold score_provider. unfold bind at 1.
rewrite circuit_isOpen_run, Hblock.
destruct (CircuitBreaker.isOpen _ _ _ _) as [b cb']. cbn [fst snd].
destruct b; cbv beta iota zeta; [done|].
unfold bind, ret. by destruct (finish_score _ _ _ _ _ _ _).
Qed.

Lemma score_provider_deterministic costs t options p env1 env2 w :
(∀ i, clock env1 i = clock env2 i) →
no_exploration options →
cost_block options (capabilities p) = None →
snd (score_provider costs t options p env1 w) =
  snd (score_provider costs t options p env2 w) ∧
option_Forall2 same_rank (fst (score_provider costs t options p env1 w))
                          (fst (score_provider costs t options p env2 w)).
Proof.
intros Hclock Heps Hblock.
rewrite !score_provider_no_cost by done. rewrite Hclock. cbv zeta.
destruct (CircuitBreaker.isOpen _ _ _ _) as [b cb']. cbn [fst snd].
destruct b.
- split; [done|constructor].
- cbn [fst snd].
  destruct (finish_score_deterministic t options p
              (0 + default 0 (priority p))%Q None env1 env2
              (with_circuit cb' (with_ticks (S (ticks w)) w)) Heps) as [Hw Hs].
  split; [done|by constructor].
Qed.

Lemma score_all_deterministic costs t options env1 env2 providers :
(∀ i, clock env1 i = clock env2 i) →
no_exploration options →
Forall (λ p, cost_block options (capabilities p) = None) providers →
∀ scored1 scored2 w,
  Forall2 same_rank scored1 scored2 →
  snd (score_all costs t options providers scored1 env1 w) =
    snd (score_all costs t options providers scored2 env2 w) ∧
  Forall2 same_rank (fst (score_all costs t options providers scored1 env1 w))
                    (fst (score_all costs t options providers scored2 env2 w)).
Proof.
intros Hclock Heps Hall.
induction Hall as [|p providers Hp Hall IH]; intros scored1 scored2 w Hacc.
- simpl. by split.
- simpl score_all. unfold bind.
  destruct (score_provider_deterministic costs t options p env1 env2 w
              Hclock Heps Hp) as [Hw Ho].
  destruct (score_provider costs t options p env1 w) as [o1 w1].
  destruct (score_provider costs t options p env2 w) as [o2 w2].
  simpl in Hw, Ho. subst w2. apply IH.
  destruct Ho as [s1 s2 Hs|]; [|done].
  apply Forall2_app; [done|]. constructor; [done|constructor].
Qed.

(** The determinism the ranking does have. With the clock readings, the
    telemetry, the circuit state, the candidates and the options fixed, with
    [explorationEpsilon] = 0 and no candidate that draws a cost variance
    (none has a cost block, or the prompt length is 0), two runs of [select]
    that differ in every value [Math.random()] returns give the same
    candidates in the same order, with equal scores, and leave the same
    state behind. Candidates with a cost block draw a variance, and their
    order follows the draws. *)
Theorem select_deterministic :
∀ (costs : Costs.PriceBook) (t : string) (providers : list RegisteredProvider)
  (options : PolicyOptions) (env1 env2 : Env) (w : World),
  (∀ i, clock env1 i = clock env2 i) →
  no_exploration options →
  Forall (λ p, cost_block options (capabilities p) = None) providers →
  let run1 := select costs t providers options env1 w in
  let run2 := select costs t providers options env2 w in
  map provider (fst run1) = map provider (fst run2) ∧
  Forall2 same_rank (fst run1) (fst run2) ∧
  snd run1 = snd run2.
Proof.
intros costs t providers options env1 env2 w Hclock Heps Hall. simpl.
destruct (score_all_deterministic costs t options env1 env2 providers
            Hclock Heps Hall [] [] w) as [Hw Hs]; [constructor|].
unfold select, bind, ret.
destruct (score_all costs t options providers [] env1 w) as [l1 w1].
destruct (score_all costs t options providers [] env2 w) as [l2 w2].
simpl in *.
assert (Hsorted := js_sort_same_rank l1 l2 Hs).
split; [by apply same_rank_providers|]. by split.
Qed.

End determinism.

(** ** Reasoning about computations *)
Section holds.

(** [m], run in [env] from [w], ends with a result and a world that
    satisfy [Q]. *)
Definition holds {A} (m : M A) (env : Env) (w : World)
    (Q : A → World → Prop) : Prop :=
Q (fst (m env w)) (snd (m env w)).

Lemma holds_ret {A} (a : A) env w Q : Q a w → holds (ret a) env w Q.
Proof. done. Qed.

Lemma holds_bind {A B} (m : M A) (k : A → M B) env w Q :
holds m env w (λ a w', holds (k a) env w' Q) → holds (bind m k) env w Q.
Proof. unfold holds, bind. by destruct (m env w). Qed.

Lemma holds_mono {A} (m : M A) env w (Q Q' : A → World → Prop) :
(∀ a w', Q a w' → Q' a w') → holds m env w Q → holds m env w Q'.
Proof. unfold holds. auto. Qed.

Lemma holds_get {A} (f : World → A) env w Q : Q (f w) w → holds (get f) env w Q.
Proof. done. Qed.

Lemma holds_modify (f : World → World) env w Q :
Q tt (f w) → holds (modify f) env w Q.
Proof. done. Qed.

Lemma holds_Date_now env w Q :
Q (clock env (ticks w)) (with_ticks (S (ticks w)) w) → holds Date_now env w Q.
Proof. done. Qed.

Lemma holds_telemetry_record rec env w Q :
Q tt (with_telemetry (Telemetry.record (telemetry w) rec) w) →
holds (telemetry_record rec) env w Q.
Proof. done. Qed.

Lemma holds_circuit_onSuccess p t env w Q :
Q tt (with_circuit (CircuitBreaker.onSuccess (circuit w) p t) w) →
holds (circuit_onSuccess p t) env w Q.
Proof. done. Qed.

Lemma holds_circuit_onFailure p t env w Q :
Q tt (with_circuit
        (CircuitBreaker.onFailure (clock env (ticks w)) (circuit w) p t)
        (with_ticks (S (ticks w)) w)) →
holds (circuit_onFailure p t) env w Q.
Proof. done. Qed.

End holds.

(** ** The dispatch *)
Section dispatch.
Import Provider Router.

(** The fields of the router that a dispatch never writes. *)
Definition config_kept (w w' : World) : Prop :=
perCallTimeoutMs w' = perCallTimeoutMs w ∧
maxRetries w' = maxRetries w ∧
sessionBudget w' = sessionBudget w ∧
globalRegistry w' = globalRegistry w.

(** The estimate the loop charges for a provider: that of the entry
    [scored.find] returns for it. *)
Definition charged (scored : list Policy.ScoredProvider)
    (rp : RegisteredProvider) : option Costs.CostEstimate :=
match find_scored scored rp with
| Some s => Policy.costEstimate s
| None => None
end.

Definition spent_after (spent : Q) (ce : option Costs.CostEstimate) : Q :=
match ce with
| Some ce => (spent + Costs.totalUSD ce)%Q
| None => spent
end.

(** What the handler of [rp] is called with. *)
Definition handler_params (w : World) (params : gmap string JsValue)
  : gmap string JsValue :=
<["timeout"%string := JsNumber (inject_Z (perCallTimeoutMs w))]> params.

(** The outcome of the retry loop, started in [w]. *)
Definition attempt_post (params : gmap string JsValue)
    (scored : list Policy.ScoredProvider) (ranked : list RegisteredProvider)
    (w : World) (r : Info + LoopEnd) (w' : World) : Prop :=
config_kept w w' ∧
match r with
| inl info =>
    ∃ rp, rp ∈ ranked ∧
          provider info = Provider.provider rp ∧
          withTimeout (handler rp (handler_params w params)) (perCallTimeoutMs w)
            = inl (result info) ∧
          costEstimate info = charged scored rp ∧
          sessionSpent w' = spent_after (sessionSpent w) (charged scored rp)
| inr _ => sessionSpent w' = sessionSpent w
end.

Lemma attempt_all_spec t params scored ranked :
∀ attempts lastError env w,
  holds (attempt_all t params scored ranked attempts lastError) env w
        (attempt_post params scored ranked w).
Proof.
induction ranked as [|rp ranked IH]; intros attempts lastError env w.
- apply holds_ret. by repeat split.
- cbn [attempt_all]. apply holds_bind, holds_get.
  destruct (attempts >? maxRetries w).
  { apply holds_ret. by repeat split. }
  apply holds_bind, holds_Date_now. apply holds_bind, holds_get.
  change (perCallTimeoutMs (with_ticks (S (ticks w)) w)) with (perCallTimeoutMs w).
  fold (handler_params w params).
  destruct (withTimeout (handler rp (handler_params w params)) (perCallTimeoutMs w))
    as [value|err] eqn:Hcall.
  + apply holds_bind, holds_Date_now. apply holds_bind, holds_Date_now.
    apply holds_bind, holds_telemetry_record.
    apply holds_bind, holds_circuit_onSuccess.
    assert (Hin : rp ∈ rp :: ranked) by constructor.
    destruct (find_scored scored rp) as [[sp sc st [ce|]]|] eqn:Hfind.
    * apply holds_bind, holds_modify. apply holds_ret.
      split; [by repeat split|]. exists rp. unfold charged. rewrite Hfind.
      by repeat split.
    * apply holds_ret.
      split; [by repeat split|]. exists rp. unfold charged. rewrite Hfind.
      by repeat split.
    * apply holds_ret.
      split; [by repeat split|]. exists rp. unfold charged. rewrite Hfind.
      by repeat split.
  + apply holds_bind, holds_Date_now. apply holds_bind, holds_Date_now.
    apply holds_bind, holds_telemetry_record.
    apply holds_bind, holds_circuit_onFailure.
    eapply holds_mono; [|apply IH].
    intros r w' [(Ht & Hm & Hb & Hg) Hr]. split; [by repeat split|].
    destruct r as [info|e]; [|exact Hr].
    destruct Hr as (rp' & Hin & Hp & Hcall' & Hce & Hspent).
    exists rp'. split; [by constructor|]. by repeat split.
Qed.

(** Every registration is an object of its own. *)
Definition distinct_objects (l : list RegisteredProvider) : Prop :=
NoDup (map oid l).

Lemma distinct_submseteq l1 l2 :
l1 ⊆+ l2 → distinct_objects l2 → distinct_objects l1.
Proof.
unfold distinct_objects. intros Hsub Hnd.
assert (Hsub' : oid <$> l1 ⊆+ oid <$> l2) by by apply fmap_submseteq.
destruct (submseteq_Permutation _ _ Hsub') as [k Hk].
change (NoDup (oid <$> l2)) in Hnd. rewrite Hk in Hnd.
by apply NoDup_app in Hnd as (? & _ & _).
Qed.

Lemma filter_submseteq (f : RegisteredProvider → bool) l : List.filter f l ⊆+ l.
Proof.
induction l as [|x l IH]; simpl; [constructor|].
destruct (f x); by constructor.
Qed.

Lemma distinct_candidates registry t hint :
distinct_objects (Registry.getProviders registry t) →
distinct_objects (candidates_for registry t hint).
Proof.
intros Hd. unfold candidates_for. destruct hint as [h|]; [|done].
destruct (negb (String.eqb h "")); [|done].
eapply distinct_submseteq; [apply filter_submseteq|done].
Qed.

Lemma find_scored_own scored s :
distinct_objects (map Policy.provider scored) →
s ∈ scored →
find_scored scored (Policy.provider s) = Some s.
Proof.
unfold distinct_objects, find_scored.
induction scored as [|a scored IH]; intros Hnd Hin.
- by apply elem_of_nil in Hin.
- simpl in *. apply NoDup_cons in Hnd as [Hnotin Hnd].
  apply elem_of_cons in Hin as [->|Hin].
  + unfold same_object. by rewrite Nat.eqb_refl.
  + destruct (same_object (Policy.provider a) (Policy.provider s)) eqn:Hsame.
    * exfalso. apply Hnotin. apply Nat.eqb_eq in Hsame. rewrite Hsame.
      change (oid (Policy.provider s) ∈ oid <$> (Policy.provider <$> scored)).
      by do 2 apply list_elem_of_fmap_2.
    * by apply IH.
Qed.

(** What a dispatch does, case by case. [scored] is the ranking it
    obtains and [w_ranked] the world the ranking leaves. *)
Definition dispatch_post (costs : Costs.PriceBook) (t : string)
    (params : gmap string JsValue) (policyOptions : Policy.PolicyOptions)
    (hint : option string) (env : Env) (w : World)
    (r : Completion Info) (w' : World) : Prop :=
let candidates := candidates_for (globalRegistry w) t hint in
let ranking := Policy.select costs t candidates
                 (ranking_options w params policyOptions) env w in
match r with
| returns info =>
    ∃ s, s ∈ fst ranking ∧
         provider info = Provider.provider (Policy.provider s) ∧
         withTimeout (handler (Policy.provider s) (handler_params w params))
                     (perCallTimeoutMs w) = inl (result info) ∧
         costEstimate info = charged (fst ranking) (Policy.provider s) ∧
         sessionSpent w' =
           spent_after (sessionSpent w) (charged (fst ranking) (Policy.provider s))
| throws e =>
    sessionSpent w' = sessionSpent w ∧
    (candidates = [] → e = NoProviders t hint ∧ w' = w) ∧
    (candidates ≠ [] → fst ranking = [] →
     e = AllUnavailable t ∧ w' = snd ranking)
end.

Lemma length_eqb_0 {A} (l : list A) : (length l =? 0)%nat = true ↔ l = [].
Proof. destruct l; simpl; split; done. Qed.

Lemma useModelWithInfo_spec costs t params policyOptions hint env w :
holds (useModelWithInfo costs t params policyOptions hint) env w
      (dispatch_post costs t params policyOptions hint env w).
Proof.
unfold useModelWithInfo, dispatch_post.
apply holds_bind, holds_get.
set (candidates := candidates_for (globalRegistry w) t hint).
destruct (length candidates =? 0)%nat eqn:Hnone.
{ apply holds_ret. apply length_eqb_0 in Hnone.
  split; [done|]. split; [done|]. intros Hne. by destruct Hne. }
assert (Hsome : candidates ≠ []).
{ intros Hnil. apply length_eqb_0 in Hnil. congruence. }
apply holds_bind, holds_get. apply holds_bind. unfold holds at 1. simpl id.
destruct (select_spec costs t (ranking_options w params policyOptions)
            candidates env w)
  as (unsorted & cb' & d & Hrun & _ & _ & Hsub & _).
set (ranking := Policy.select costs t candidates
                  (ranking_options w params policyOptions) env w) in *.
destruct (length (fst ranking) =? 0)%nat eqn:Hempty.
{ apply holds_ret. apply length_eqb_0 in Hempty.
  split; [by rewrite Hrun|]. split; [done|]. done. }
assert (Hranked : fst ranking ≠ []).
{ intros Hnil. apply length_eqb_0 in Hnil. congruence. }
apply holds_bind. eapply holds_mono; [|apply attempt_all_spec].
assert (Hw : sessionSpent (snd ranking) = sessionSpent w ∧
             perCallTimeoutMs (snd ranking) = perCallTimeoutMs w)
  by by rewrite Hrun.
destruct Hw as [Hspent Hms].
intros [info|e] w' [_ Hpost]; apply holds_ret.
- destruct Hpost as (rp & Hin & Hp & Hcall & Hce & Hcharged).
  change (rp ∈ Policy.provider <$> fst ranking) in Hin.
  apply list_elem_of_fmap_1 in Hin as (s & -> & Hs).
  exists s. unfold handler_params in *. rewrite Hms in Hcall. rewrite Hspent in Hcharged.
  by repeat split.
- split; [by rewrite Hpost|]. split; [done|]. done.
Qed.

(** C8, as the code has it. When the registry has candidates and the
    ranking of them is empty, the dispatch throws the all-unavailable error
    and does nothing after the ranking: the world it leaves is the one the
    ranking left, so no handler ran, no telemetry record was appended and
    the session ledger is as it was. The breaker can differ from before
    in one way only: the [isOpen] queries of the ranking have moved to
    half-open the open entries whose cool-off had run out. *)
Theorem dispatch_all_unavailable :
∀ (costs : Costs.PriceBook) (t : string) (params : gmap string JsValue)
  (policyOptions : Policy.PolicyOptions) (hint : option string)
  (env : Env) (w : World),
  let candidates := candidates_for (globalRegistry w) t hint in
  let ranking := Policy.select costs t candidates
                   (ranking_options w params policyOptions) env w in
  let r := useModelWithInfo costs t params policyOptions hint env w in
  candidates ≠ [] →
  fst ranking = [] →
  fst r = throws (AllUnavailable t) ∧
  snd r = snd ranking ∧
  telemetry (snd r) = telemetry w ∧
  sessionSpent (snd r) = sessionSpent w ∧
  sessionBudget (snd r) = sessionBudget w ∧
  promoted_from env (ticks w) (ticks (snd r)) (circuit w) (circuit (snd r)).
Proof.
intros costs t params policyOptions hint env w candidates ranking r Hsome Hempty.
pose proof (useModelWithInfo_spec costs t params policyOptions hint env w) as Hspec.
unfold holds, dispatch_post in Hspec. fold candidates ranking r in Hspec.
destruct (select_spec costs t (ranking_options w params policyOptions)
            candidates env w)
  as (unsorted & cb' & d & Hrun & _ & Hprom & _ & _).
fold ranking in Hrun.
destruct (fst r) as [info|e].
- destruct Hspec as (s & Hin & _). rewrite Hempty in Hin.
  by apply elem_of_nil in Hin.
- destruct Hspec as (_ & _ & Hall). destruct (Hall Hsome Hempty) as [-> Hw].
  rewrite Hw, Hrun. simpl. by repeat split; try apply Hprom.
Qed.

(** *** Estimates are not negative *)

Definition nonneg_rates (c : Costs.ModelCosts) : Prop :=
(0 <= Costs.input c)%Q ∧ (0 <= Costs.output c)%Q.

(** The price book holds no negative rate. *)
Definition nonneg_prices (costs : Costs.PriceBook) : Prop :=
nonneg_rates (Costs.default_rates costs) ∧
∀ name c, Costs.named_rates costs !! name = Some c → nonneg_rates c.

(** A cost block as the capability record describes it: a positive number
    of characters per token, a fee and a discount factor that are not
    negative. *)
Definition sane_cost_block (c : CostCapabilities) : Prop :=
(∀ x, tokenCharsPerToken c = Some x → (0 < x)%Q) ∧
(∀ x, requestFixedFeeUSD c = Some x → (0 <= x)%Q) ∧
(∀ x, discountFactor c = Some x → (0 <= x)%Q).

Definition sane_provider (p : RegisteredProvider) : Prop :=
∀ caps c, capabilities p = Some caps → cost caps = Some c → sane_cost_block c.

Lemma getModelCosts_nonneg costs name :
nonneg_prices costs → nonneg_rates (Costs.getModelCosts costs name).
Proof.
intros [Hd Hn]. unfold Costs.getModelCosts, Costs.costs_get.
destruct (decide _); [done|].
destruct (Costs.named_rates costs !! name) as [c|] eqn:Hc; [by eapply Hn|done].
Qed.

Lemma Math_max_ge_l a b : (a <= Math_max a b)%Q.
Proof.
unfold Math_max. destruct (Qle_bool a b) eqn:H.
- by apply Qle_bool_iff.
- apply Qle_refl.
Qed.

Lemma Math_ceil_nonneg x : (0 <= x)%Q → (0 <= Math_ceil x)%Q.
Proof.
intros Hx. unfold Math_ceil.
apply Qle_trans with x; [done|apply Qle_ceiling].
Qed.

Lemma per_thousand_nonneg tokens rate :
(0 <= tokens)%Q → (0 <= rate)%Q → (0 <= tokens / 1000 * rate)%Q.
Proof.
intros Ht Hr. apply Qmult_le_0_compat; [|done].
apply Qle_shift_div_l; [reflexivity|]. by rewrite Qmult_0_l.
Qed.

Lemma estimateCost_nonneg costs params :
nonneg_prices costs →
(0 <= Costs.promptChars params)%Q →
(∀ x, Costs.charsPerToken params = Some x → (0 < x)%Q) →
(∀ x, Costs.requestFixedFeeUSD params = Some x → (0 <= x)%Q) →
(∀ x, Costs.discountFactor params = Some x → (0 <= x)%Q) →
(0 <= Costs.totalUSD (Costs.estimateCost costs params))%Q.
Proof.
intros Hprices Hchars Hper Hfee Hdisc.
destruct (getModelCosts_nonneg costs (Costs.simulatedModelName params) Hprices)
  as [Hin Hout].
unfold Costs.estimateCost. cbn [Costs.totalUSD].
assert (Hper' : (0 < default (4 # 1) (Costs.charsPerToken params))%Q).
{ destruct (Costs.charsPerToken params) as [x|]; [by apply Hper|reflexivity]. }
assert (Hfee' : (0 <= default 0 (Costs.requestFixedFeeUSD params))%Q).
{ destruct (Costs.requestFixedFeeUSD params) as [x|]; [by apply Hfee|apply Qle_refl]. }
assert (Hdisc' : (0 <= default 1 (Costs.discountFactor params))%Q).
{ destruct (Costs.discountFactor params) as [x|]; [by apply Hdisc|discriminate]. }
assert (Htok : (0 <= Costs.estimateTokens (Costs.promptChars params)
                       (default (4 # 1) (Costs.charsPerToken params)))%Q).
{ apply Math_ceil_nonneg. apply Qle_shift_div_l; [done|]. by rewrite Qmult_0_l. }
assert (Hmax : ∀ y, (0 <= Math_max 1 y)%Q).
{ intros y. apply Qle_trans with 1%Q; [discriminate|apply Math_max_ge_l]. }
apply Qmult_le_0_compat; [|done].
apply Qle_trans with (0 + 0 + 0)%Q; [discriminate|].
apply Qplus_le_compat; [apply Qplus_le_compat|done].
- by apply per_thousand_nonneg.
- apply per_thousand_nonneg; [|done].
  destruct (Costs.expectedOutputTokens params) as [e|]; [|apply Hmax].
  destruct (truthyQ e && Qgt_bool e 0) eqn:He; [|apply Hmax].
  apply andb_true_iff in He as [_ He]. apply Qgt_bool_true in He.
  by apply Qlt_le_weak.
Qed.

Lemma estimateCostWithVariance_nonneg costs params r :
(0 <= r)%Q →
(0 <= Costs.totalUSD (Costs.estimateCost costs params))%Q →
(0 <= Costs.totalUSD (Costs.estimateCostWithVariance costs params r))%Q.
Proof.
intros Hr Hbase. unfold Costs.estimateCostWithVariance. cbn [Costs.totalUSD].
apply Qmult_le_0_compat; [done|]. lra.
Qed.

Lemma cost_block_Some options caps c :
Policy.cost_block options caps = Some c →
(0 < default 0 (Policy.promptLength options))%Q ∧
∃ caps', caps = Some caps' ∧ cost caps' = Some c.
Proof.
unfold Policy.cost_block. destruct caps as [caps'|]; [|done].
destruct (cost caps') as [c'|] eqn:Hc; [|done].
destruct (negb _ && Qgt_bool _ 0) eqn:Hb; [|done].
intros [= ->]. apply andb_true_iff in Hb as [_ Hb]. apply Qgt_bool_true in Hb.
split; [done|]. by exists caps'.
Qed.

(** An estimate attached by the ranking is not negative. *)
Lemma estimated_nonneg costs options env s ce :
nonneg_prices costs →
sane_provider (Policy.provider s) →
(∀ i, (0 <= random env i)%Q) →
estimated costs options env s →
Policy.costEstimate s = Some ce →
(0 <= Costs.totalUSD ce)%Q.
Proof.
intros Hprices Hsane Hrandom Hest Hce.
destruct (Hest ce Hce) as (c & i & Hblock & ->).
apply cost_block_Some in Hblock as (Hlen & caps & Hcaps & Hcost).
destruct (Hsane caps c Hcaps Hcost) as (Hper & Hfee & Hdisc).
apply estimateCostWithVariance_nonneg; [done|].
apply estimateCost_nonneg; try done. by apply Qlt_le_weak.
Qed.

Lemma candidates_registered registry t hint p :
p ∈ candidates_for registry t hint → p ∈ Registry.getProviders registry t.
Proof.
unfold candidates_for. destruct hint as [h|]; [|done].
destruct (negb (String.eqb h "")); [|done].
intros Hin. eapply elem_of_submseteq; [exact Hin|apply filter_submseteq].
Qed.

(** C2. For a dispatch in a process whose registrations are objects of
    their own:
    - when it returns, it returns for a candidate [s] of the ranking whose
      handler resolved in time, with the estimate of [s], and the session
      spend has grown by exactly [totalUSD] of that estimate, or is unchanged
      when [s] carries none;
    - when it throws, the session spend is unchanged;
    - the session spend has not decreased, when no rate of the price book,
      fee or discount factor is negative, the characters per token are
      positive and [Math.random()] returns no negative value. *)
Theorem dispatch_charges_the_selected_estimate :
∀ (costs : Costs.PriceBook) (t : string) (params : gmap string JsValue)
  (policyOptions : Policy.PolicyOptions) (hint : option string)
  (env : Env) (w : World),
  distinct_objects (Registry.getProviders (globalRegistry w) t) →
  let candidates := candidates_for (globalRegistry w) t hint in
  let scored := fst (Policy.select costs t candidates
                       (ranking_options w params policyOptions) env w) in
  let r := useModelWithInfo costs t params policyOptions hint env w in
  match fst r with
  | returns info =>
      ∃ s, s ∈ scored ∧
           provider info = Provider.provider (Policy.provider s) ∧
           withTimeout (handler (Policy.provider s) (handler_params w params))
                       (perCallTimeoutMs w) = inl (result info) ∧
           costEstimate info = Policy.costEstimate s ∧
           sessionSpent (snd r) =
             match Policy.costEstimate s with
             | Some ce => (sessionSpent w + Costs.totalUSD ce)%Q
             | None => sessionSpent w
             end
  | throws _ => sessionSpent (snd r) = sessionSpent w
  end ∧
  (nonneg_prices costs →
   Forall sane_provider (Registry.getProviders (globalRegistry w) t) →
   (∀ i, (0 <= random env i)%Q) →
   (sessionSpent w <= sessionSpent (snd r))%Q).
Proof.
intros costs t params policyOptions hint env w Hdistinct candidates scored r.
pose proof (useModelWithInfo_spec costs t params policyOptions hint env w) as Hspec.
unfold holds, dispatch_post in Hspec. fold candidates scored r in Hspec.
destruct (select_spec costs t (ranking_options w params policyOptions)
            candidates env w)
  as (unsorted & cb' & d & Hrun & _ & _ & Hsub & Hall).
assert (Hscored : scored = js_sort Policy.by_score_desc unsorted)
  by (unfold scored; by rewrite Hrun).
assert (Hperm : scored ≡ₚ unsorted)
  by (rewrite Hscored; apply js_sort_Permutation).
assert (Hd : distinct_objects (map Policy.provider scored)).
{ apply (distinct_submseteq _ candidates); [|by apply distinct_candidates].
  change (Policy.provider <$> scored ⊆+ candidates). by rewrite Hperm. }
destruct (fst r) as [info|e].
- destruct Hspec as (s & Hin & Hp & Hcall & Hce & Hspent).
  unfold charged in Hce, Hspent. rewrite (find_scored_own _ s Hd Hin) in Hce, Hspent.
  split; [by exists s|].
  intros Hprices Hsane Hrandom. rewrite Hspent. unfold spent_after.
  destruct (Policy.costEstimate s) as [ce|] eqn:Hs; [|apply Qle_refl].
  assert (Hnonneg : (0 <= Costs.totalUSD ce)%Q).
  { rewrite Hperm in Hin. rewrite Forall_forall in Hall.
    destruct (Hall s Hin) as [[_ Hest] _].
    apply (estimated_nonneg costs (ranking_options w params policyOptions) env s);
      try done.
    rewrite Forall_forall in Hsane. apply Hsane.
    apply (candidates_registered _ _ hint).
    apply (elem_of_submseteq (map Policy.provider unsorted)); [|done].
    change (Policy.provider s ∈ Policy.provider <$> unsorted).
    by apply list_elem_of_fmap_2. }
  lra.
- destruct Hspec as (Hspent & _). split; [done|]. intros _ _ _. rewrite Hspent.
  apply Qle_refl.
Qed.

End dispatch.

(** ** The registry hands out objects of their own *)
Section registry.
Import Provider Registry.

(** The registrations of every capability are distinct objects, allocated
    before the next one. *)
Definition registry_wf (reg : Registry.t) : Prop :=
∀ t, distinct_objects (getProviders reg t) ∧
     Forall (λ p, (oid p < allocated reg)%nat) (getProviders reg t).

Lemma registry_empty_wf : registry_wf Registry.empty.
Proof.
intros t. unfold getProviders. simpl. rewrite lookup_empty. simpl.
split; constructor.
Qed.

Lemma registry_clear_wf reg : registry_wf (Registry.clear reg).
Proof.
intros t. unfold getProviders. simpl. rewrite lookup_empty. simpl.
split; constructor.
Qed.

Lemma registerModel_wf reg modelType handler provider priority capabilities :
registry_wf reg →
registry_wf (registerModel reg modelType handler provider priority capabilities).
Proof.
intros Hwf t. destruct (Hwf t) as [Hd Hlt].
unfold registerModel, getProviders. simpl.
destruct (decide (modelType = t)) as [->|Hne].
- rewrite lookup_insert_eq. simpl.
  set (registration := {| oid := allocated reg; modelType := t;
                          provider := provider; handler := handler;
                          priority := Some (default 0%Q priority);
                          capabilities := capabilities |}).
  fold (getProviders reg t).
  assert (Hperm : js_sort by_priority (getProviders reg t ++ [registration])
                  ≡ₚ getProviders reg t ++ [registration])
    by apply js_sort_Permutation.
  split.
  + unfold distinct_objects.
    change (NoDup (oid <$> js_sort by_priority (getProviders reg t ++ [registration]))).
    rewrite Hperm, fmap_app. apply NoDup_app. split; [exact Hd|]. split.
    * intros x Hx Hx'. apply list_elem_of_singleton in Hx'. subst x.
      apply list_elem_of_fmap_1 in Hx as (p & Hp & Hin).
      rewrite Forall_forall in Hlt. specialize (Hlt p Hin). simpl in Hp. lia.
    * apply NoDup_singleton.
  + rewrite Hperm. apply Forall_app. split.
    * eapply Forall_impl; [exact Hlt|]. simpl. intros p Hp. lia.
    * constructor; [simpl; lia|constructor].
- rewrite lookup_insert_ne by done. fold (getProviders reg t).
  split; [exact Hd|]. eapply Forall_impl; [exact Hlt|]. simpl. intros p Hp. lia.
Qed.

End registry.

(** ** Concrete cases of the dispatch and of determinism *)
Section dispatch_cases.
Import Provider Router Scenario.

(** The circuit of A is open since time 1 and the budget is below the
    estimate for the prompt. At time 100000 the cool-off of 60 s has run
    out: the dispatch throws the all-unavailable error, and the query of the
    ranking has moved the entry from open to half-open. *)
Lemma all_unavailable_dispatch_moves_breaker :
let w := tripped_world tiny_budget in
let r := useModelWithInfo book "T" prompt_hello Policy.no_options None
           (steady 100000) w in
fst r = throws (AllUnavailable "T") ∧
CircuitBreaker.state <$>
  (CircuitBreaker.map (circuit w) !! CircuitBreaker.key "A" "T")
  = Some CircuitBreaker.open ∧
CircuitBreaker.state <$>
  (CircuitBreaker.map (circuit (snd r)) !! CircuitBreaker.key "A" "T")
  = Some CircuitBreaker.half_open.
Proof. vm_compute. repeat split; reflexivity. Qed.

(** At time 10 the circuit is still cooling: the dispatch throws and
    nothing has changed but the clock reading. *)
Lemma dispatch_all_unavailable_witness :
let w := tripped_world tiny_budget in
let r := useModelWithInfo book "T" prompt_hello Policy.no_options None (steady 10) w in
fst r = throws (AllUnavailable "T") ∧
telemetry (snd r) = telemetry w ∧
sessionSpent (snd r) = sessionSpent w.
Proof.
pose proof (dispatch_all_unavailable book "T" prompt_hello Policy.no_options None
              (steady 10) (tripped_world tiny_budget)) as H.
cbv zeta in H.
destruct H as (Hthrow & _ & Htel & Hspent & _).
- intros Hnil. vm_compute in Hnil. discriminate Hnil.
- vm_compute. reflexivity.
- cbv zeta. split; [exact Hthrow|]. split; [exact Htel|exact Hspent].
Defined.

(** With a budget of 1 USD the dispatch returns from A and charges its
    estimate. *)
Lemma dispatch_charges_the_selected_estimate_witness :
let w := world_with_budget 1 in
let r := useModelWithInfo book "T" prompt_hello Policy.no_options None (steady 10) w in
∃ info ce,
  fst r = returns info ∧
  provider info = "A"%string ∧
  costEstimate info = Some ce ∧
  sessionSpent (snd r) = (sessionSpent w + Costs.totalUSD ce)%Q ∧
  (Costs.totalUSD ce == 9 # 10000000)%Q.
Proof.
cbv zeta.
pose proof (dispatch_charges_the_selected_estimate book "T" prompt_hello
              Policy.no_options None (steady 10) (world_with_budget 1)) as H.
cbv zeta in H. destruct H as [H _].
{ vm_compute. apply NoDup_singleton. }
destruct (fst (useModelWithInfo book "T" prompt_hello Policy.no_options None
                 (steady 10) (world_with_budget 1))) as [info|e] eqn:Hr.
- destruct H as (s & Hin & Hp & _ & Hce & Hspent).
  vm_compute in Hin. apply list_elem_of_singleton in Hin. subst s.
  eexists info, _. split; [reflexivity|]. split; [exact Hp|].
  split; [exact Hce|]. split; [exact Hspent|]. vm_compute. reflexivity.
- vm_compute in Hr. discriminate Hr.
Defined.

(** Providers A and B without cost blocks, no exploration: draws of 0
    and draws of 0.9 give the same order, A before B. *)
Lemma select_deterministic_witness :
map Policy.provider
    (fst (Policy.select book "TEXT_SMALL" [plain_A; plain_B] options_without_exploration
            (constant 1000 0) fresh_world)) = [plain_A; plain_B] ∧
map Policy.provider
    (fst (Policy.select book "TEXT_SMALL" [plain_A; plain_B] options_without_exploration
            (constant 1000 (9 # 10)) fresh_world)) = [plain_A; plain_B].
Proof.
destruct (select_deterministic book "TEXT_SMALL" [plain_A; plain_B]
            options_without_exploration (constant 1000 0) (constant 1000 (9 # 10))
            fresh_world) as (Hsame & _ & _).
- intros i. reflexivity.
- reflexivity.
- repeat constructor.
- cbv zeta in Hsame. rewrite <- Hsame. split; vm_compute; reflexivity.
Defined.

(** C10. The cost variance cannot be switched off in [select]: it calls
    [estimateCostWithVariance] for every candidate with a cost block when
    the prompt length is positive, and nothing reads the configuration's
    [enableVariance]. With [explorationEpsilon] = 0 and everything but the
    values of [Math.random()] fixed, two runs rank two providers that differ
    in name only in opposite orders: the one whose variance draw is low
    comes first. *)
Theorem select_cost_variance_reorders :
let options :=
  {| Policy.promptLength := Some (400 # 1); Policy.hasSchema := None;
     Policy.promptLengthThreshold := None; Policy.jsonBiasWeight := None;
     Policy.latencyWeight := None; Policy.failurePenalty := None;
     Policy.explorationEpsilon := Some 0%Q; Policy.costWeight := None;
     Policy.expectedOutputTokens := None; Policy.sessionBudget := None;
     Policy.sessionSpent := None |} in
map (λ s, Provider.provider (Policy.provider s))
    (fst (Policy.select book "T" [twin_X; twin_Y] options (low_draw_at 0 1000) fresh_world))
  = ["X"; "Y"]%string ∧
map (λ s, Provider.provider (Policy.provider s))
    (fst (Policy.select book "T" [twin_X; twin_Y] options (low_draw_at 2 1000) fresh_world))
  = ["Y"; "X"]%string.
Proof. vm_compute. split; reflexivity. Qed.

End dispatch_cases.

(** ** The prompt length used for the ranking *)
Section prompt_length.
Import Provider Router Scenario.

(** The prompt length the dispatch ranks with is the length of
    [params.prompt] when that is a string and 0 otherwise, whatever the
    caller's options and [params.text] hold. *)
Lemma ranking_promptLength_is_derived w params policyOptions :
Policy.promptLength (ranking_options w params policyOptions) =
  Some (match params !! "prompt"%string with
        | Some (JsString s) => inject_Z (Z.of_nat (String.length s))
        | _ => 0%Q
        end).
Proof.
unfold ranking_options, derived_promptLength, get_field. simpl.
by destruct (params !! "prompt"%string) as [[]|].
Qed.

(** C9, at the input [params = { text: "hello" }] with the caller's option
    [promptLength = 5] (and, for the dispatch, 400): the dispatch ranks
    with a prompt length of 0. With a budget below the estimate for 400
    characters it therefore makes no estimate and returns from A, where a
    ranking with the caller's 400 excludes A. *)
Theorem dispatch_discards_caller_promptLength :
Policy.promptLength
  (ranking_options (world_with_budget tiny_budget) text_hello
                   (options_with_promptLength (5 # 1))) = Some 0%Q ∧
(∃ info,
   fst (useModelWithInfo book "T" text_hello (options_with_promptLength (400 # 1))
          None (steady 10) (world_with_budget tiny_budget)) = returns info ∧
   provider info = "A"%string ∧ costEstimate info = None) ∧
fst (Policy.select book "T" (Registry.getProviders registry_A "T")
       (options_with_budget tiny_budget 0) (steady 10)
       (world_with_budget tiny_budget)) = [].
Proof.
split; [reflexivity|]. split.
- eexists. split; [vm_compute; reflexivity|]. split; reflexivity.
- vm_compute. reflexivity.
Qed.

End prompt_length.

(** * Further properties of the components *)

(** ** The breaker: counting, keys and queries *)
Section breaker_more.
Import CircuitBreaker.

Lemma onSuccess_entry cb p t :
entry_of (onSuccess cb p t) (key p t) = fresh_entry.
Proof. unfold entry_of, onSuccess. simpl. by rewrite lookup_insert_eq. Qed.

Lemma reset_entry cb p t :
entry_of (reset cb p t) (key p t) = fresh_entry.
Proof. unfold entry_of, reset. simpl. by rewrite lookup_delete_eq. Qed.

Lemma isOpen_closed_entry now cb p t :
state (entry_of cb (key p t)) = closed →
isOpen now cb p t = (false, cb).
Proof.
unfold entry_of, isOpen. destruct (map cb !! key p t) as [e|]; [|done].
simpl. intros He. destruct (decide (state e = open)); [congruence|done].
Qed.

(** X1. The failures counted are consecutive ones: after an [onSuccess] or
    a [reset] of a key, in whatever state it was, fewer failures than the
    threshold leave it closed, counting them, and [isOpen] answers false
    without changing anything; the failure that reaches the threshold opens
    it, at the time of that call. *)
Theorem success_or_reset_restarts_the_count :
∀ (cb cb0 : CircuitBreaker.t) (p t : string) (times : list Z) (next now : Z),
  cb0 = onSuccess cb p t ∨ cb0 = reset cb p t →
  Z.of_nat (length times) < failureThreshold (options cb) →
  let cb1 := failures times cb0 p t in
  entry_of cb1 (key p t) =
    {| state := closed;
       consecutiveFailures := Z.of_nat (length times);
       openedAt := None |} ∧
  isOpen now cb1 p t = (false, cb1) ∧
  (Z.of_nat (length times) + 1 = failureThreshold (options cb) →
   entry_of (onFailure next cb1 p t) (key p t) =
     {| state := open;
        consecutiveFailures := failureThreshold (options cb);
        openedAt := Some next |}).
Proof.
intros cb cb0 p t times next now Hcb0 Hlt cb1.
assert (Hfresh : entry_of cb0 (key p t) = fresh_entry).
{ destruct Hcb0 as [-> | ->]; [apply onSuccess_entry|apply reset_entry]. }
assert (Hopts : options cb0 = options cb) by by destruct Hcb0 as [-> | ->].
assert (He : entry_of cb1 (key p t) =
             {| state := closed;
                consecutiveFailures := Z.of_nat (length times);
                openedAt := None |}).
{ subst cb1. rewrite (failures_below times cb0 p t 0).
  - done.
  - exact Hfresh.
  - rewrite Hopts. lia. }
split; [exact He|]. split.
- apply isOpen_closed_entry. by rewrite He.
- intros Hth. unfold entry_of at 1. rewrite onFailure_lookup. simpl.
  rewrite He. simpl. subst cb1. rewrite failures_options, Hopts.
  destruct (Z.geb_spec (Z.of_nat (length times) + 1) (failureThreshold (options cb)));
    [|lia].
  by rewrite Hth.
Qed.

(** The key an operation works on. *)
Definition op_key (op : Op) : option string :=
match op with
| call_isOpen _ p t | call_onSuccess p t | call_onFailure _ p t | call_reset p t =>
    Some (key p t)
| call_clearAll => None
end.

(** X2. A call for one key changes the entry of no other key: the
    failures of one provider never open the circuit of another. *)
Theorem calls_leave_other_keys_alone :
∀ (cb : CircuitBreaker.t) (op : Op) (k k' : string),
  op_key op = Some k → k ≠ k' →
  map (apply_op cb op) !! k' = map cb !! k'.
Proof.
intros cb op k k' Hk Hne.
destruct op as [now p t|p t|now p t|p t|]; simpl in Hk; try discriminate;
  injection Hk as <-; cbn [apply_op].
- destruct (isOpen_cases now cb p t) as [[-> _]|[[-> _]|(e & _ & _ & _ & ->)]];
    simpl; [done|done|]. by rewrite lookup_insert_ne.
- unfold onSuccess. simpl. by rewrite lookup_insert_ne.
- unfold onFailure. simpl. by rewrite lookup_insert_ne.
- unfold reset. simpl. by rewrite lookup_delete_ne.
Qed.

(** An entry is closed exactly when it has no opening time. *)
Definition stamped (cb : CircuitBreaker.t) : Prop :=
∀ k e, map cb !! k = Some e →
       (state e = closed → openedAt e = None) ∧
       (state e ≠ closed → is_Some (openedAt e)).

Lemma stamped_step cb op : stamped cb → stamped (apply_op cb op).
Proof.
intros Hs k e. destruct op as [now p t|p t|now p t|p t|]; cbn [apply_op].
- destruct (isOpen_cases now cb p t) as [[-> _]|[[-> _]|(e0 & He0 & Ho & _ & ->)]];
    simpl; [apply Hs|apply Hs|].
  destruct (decide (key p t = k)) as [<-|Hne].
  + rewrite lookup_insert_eq. intros [= <-]. simpl. split; [done|].
    intros _. apply (Hs _ _ He0). by rewrite Ho.
  + rewrite lookup_insert_ne by done. apply Hs.
- unfold onSuccess. simpl. destruct (decide (key p t = k)) as [<-|Hne].
  + rewrite lookup_insert_eq. intros [= <-]. by split.
  + rewrite lookup_insert_ne by done. apply Hs.
- destruct (decide (key p t = k)) as [<-|Hne].
  + rewrite onFailure_lookup. intros [= <-].
    destruct (_ >=? _); simpl; [split; [done|by eexists]|].
    unfold entry_of. destruct (map cb !! key p t) as [e0|] eqn:He0; simpl.
    * by apply Hs in He0.
    * by split.
  + unfold onFailure. simpl. rewrite lookup_insert_ne by done. apply Hs.
- unfold reset. simpl. destruct (decide (key p t = k)) as [<-|Hne].
  + by rewrite lookup_delete_eq.
  + rewrite lookup_delete_ne by done. apply Hs.
- simpl. by rewrite lookup_empty.
Qed.

(** X3. In every breaker reached by calls from a new one, a closed entry
    has no opening time and an open or half-open entry has one, so the
    cool-off of an open entry can always be measured. *)
Theorem reachable_entries_are_stamped :
∀ (opts : CircuitOptions) (cb : CircuitBreaker.t) (k : string) (e : Entry),
  reachable opts cb →
  map cb !! k = Some e →
  (state e = closed ↔ openedAt e = None).
Proof.
intros opts cb k e Hr He.
assert (Hs : stamped cb).
{ clear k e He. induction Hr as [|cb op _ IH].
  - intros k e. simpl. by rewrite lookup_empty.
  - by apply stamped_step. }
destruct (Hs k e He) as [Hc Hn]. split; [exact Hc|].
intros Hnone. destruct (decide (state e = closed)) as [|Hne]; [done|].
destruct (Hn Hne) as [x Hx]. congruence.
Qed.

(** X4. A query settles: when [isOpen] has answered false for a key,
    every further query for it, at whatever time, answers false and changes
    nothing, until another call is made; and a query that answers true
    changes nothing. *)
Theorem isOpen_settles :
∀ (cb : CircuitBreaker.t) (p t : string) (now later : Z),
  let first := isOpen now cb p t in
  (fst first = true → snd first = cb) ∧
  (fst first = false → isOpen later (snd first) p t = (false, snd first)).
Proof.
intros cb p t now later. simpl.
destruct (isOpen_cases now cb p t)
  as [[Hq _]|[[Hq Hn]|(e & He & Ho & Hc & Hq)]]; rewrite Hq; simpl.
- by split.
- split; [done|]. intros _.
  destruct (isOpen_cases later cb p t)
    as [[_ (e & He & Ho & _)]|[[Hq' _]|(e & He & Ho & _)]]; [|done|];
    by destruct (Hn e He).
- split; [done|]. intros _. unfold isOpen. simpl.
  rewrite lookup_insert_eq. simpl. done.
Qed.

End breaker_more.

(** ** Keys *)
Section keys.

(** The string holds no colon. *)
Fixpoint colon_free (s : string) : Prop :=
match s with
| EmptyString => True
| String c s' => c ≠ ":"%char ∧ colon_free s'
end.

Lemma append_cons (c : ascii) (a b : string) :
(String c a ++ b = String c (a ++ b))%string.
Proof. reflexivity. Qed.

Lemma append_assoc (a b c : string) :
((a ++ b) ++ c = a ++ (b ++ c))%string.
Proof.
induction a as [|x a IH]; [reflexivity|]. by rewrite !append_cons, IH.
Qed.

Lemma key_injective p t p' t' :
colon_free p → colon_free p' →
(p ++ "::" ++ t = p' ++ "::" ++ t')%string →
p = p' ∧ t = t'.
Proof.
revert p'. induction p as [|c p IH]; intros [|c' p'] Hp Hp' Heq.
- change (String ":" (String ":" t) = String ":" (String ":" t')) in Heq.
  by injection Heq as ->.
- change (String ":" (String ":" t) = String c' (p' ++ "::" ++ t')%string) in Heq.
  injection Heq as <- _. by destruct Hp' as [[] _].
- change (String c (p ++ "::" ++ t)%string = String ":" (String ":" t')) in Heq.
  injection Heq as -> _. by destruct Hp as [[] _].
- rewrite !append_cons in Heq. injection Heq as -> Heq.
  destruct Hp as [_ Hp]. destruct Hp' as [_ Hp'].
  destruct (IH p' Hp Hp' Heq) as [-> ->]. done.
Qed.

(** X5. The breaker and the telemetry file their state under
    [provider + "::" + modelType]. For provider names without a colon, two
    (provider, model type) pairs with the same key are the same pair; in
    general they need not be: provider [p::x] with model type [t] shares the
    key of provider [p] with model type [x::t]. *)
Theorem keys_separate_colon_free_providers :
∀ (p t p' t' : string),
  (colon_free p → colon_free p' →
   CircuitBreaker.key p t = CircuitBreaker.key p' t' → p = p' ∧ t = t') ∧
  (colon_free p → colon_free p' →
   Telemetry.key p t = Telemetry.key p' t' → p = p' ∧ t = t') ∧
  (∀ x, CircuitBreaker.key (p ++ "::" ++ x) t = CircuitBreaker.key p (x ++ "::" ++ t)) ∧
  (∀ x, Telemetry.key (p ++ "::" ++ x) t = Telemetry.key p (x ++ "::" ++ t)).
Proof.
intros p t p' t'. unfold CircuitBreaker.key, Telemetry.key.
split; [apply key_injective|]. split; [apply key_injective|].
split; intros x; by rewrite !append_assoc.
Qed.

End keys.

(** ** The telemetry: tallies, percentiles and keys *)
Section telemetry_more.
Import Telemetry.

Lemma ring_record_all (W : Z) (recs : list TelemetryRecord) (k : string) :
0 ≤ W →
ring (record_all (Telemetry.new W) recs) k =
  most_recent (Z.to_nat W) (filter (λ r, record_key r = k) recs).
Proof.
intros HW. induction recs as [|r recs IH] using rev_ind.
- unfold ring. simpl. by rewrite lookup_empty.
- rewrite record_all_snoc, record_ring
    by (rewrite record_all_windowSize; simpl; lia).
  rewrite record_all_windowSize. simpl windowSize.
  rewrite filter_app, IH, filter_cons, filter_nil.
  destruct (decide (record_key r = k)) as [Heq|Hne].
  + apply most_recent_snoc.
  + by rewrite app_nil_r.
Qed.

Lemma count_outcome_total (arr : list TelemetryRecord) :
count_outcome success arr + count_outcome failure arr + count_outcome timeout arr
  = Z.of_nat (length arr).
Proof.
unfold count_outcome. induction arr as [|a arr IH]; [done|].
rewrite !filter_cons. simpl length.
destruct (outcome a); repeat case_decide; try congruence; simpl length; lia.
Qed.

(** X6. The tallies of [getStats] add up: [count] is the number of records
    in the window of the key and equals [success + failure + timeout]; on a
    telemetry of window size [W >= 0] filled by [record] calls it is at
    most [W]. *)
Theorem getStats_tallies_add_up :
∀ (W : Z) (recs : list TelemetryRecord) (p t : string),
  0 ≤ W →
  let tel := record_all (Telemetry.new W) recs in
  let stats := getStats tel p t in
  count stats = Z.of_nat (length (ring tel (key p t))) ∧
  count stats = successes stats + failures stats + timeouts stats ∧
  0 ≤ successes stats ∧ 0 ≤ failures stats ∧ 0 ≤ timeouts stats ∧
  count stats ≤ W.
Proof.
intros W recs p t HW tel stats.
assert (Hlen : Z.of_nat (length (ring tel (key p t))) ≤ W).
{ subst tel. rewrite ring_record_all, most_recent_length by done. lia. }
subst stats. unfold getStats. fold (ring tel (key p t)).
destruct (Z.eqb_spec (Z.of_nat (length (ring tel (key p t)))) 0) as [H0|Hn]; simpl.
- rewrite H0 in *. repeat split; lia.
- pose proof (count_outcome_total (ring tel (key p t))).
  unfold count_outcome in *. repeat split; lia.
Qed.

Lemma rank_index_bounds (q : Q) (n : Z) :
0 < n → 0 ≤ rank_index q n < n.
Proof. unfold rank_index, clamp. lia. Qed.

Lemma rank_index_mono (q q' : Q) (n : Z) :
(q <= q')%Q → 0 < n → rank_index q n ≤ rank_index q' n.
Proof.
intros Hq Hn. unfold rank_index, clamp.
assert (Qfloor (q * inject_Z (n - 1)) ≤ Qfloor (q' * inject_Z (n - 1))).
{ apply Qfloor_resp_le. apply Qmult_le_compat_r; [done|].
  rewrite <- (Zle_Qle 0). lia. }
lia.
Qed.

Lemma Sorted_lookup_le (l : list Z) (i j : nat) (a b : Z) :
Sorted Z.le l → (i ≤ j)%nat → l !! i = Some a → l !! j = Some b → a ≤ b.
Proof.
intros Hs. apply Sorted_StronglySorted in Hs; [|intros x y z; lia].
revert i j. induction Hs as [|x l Hs IH Hall]; intros i j Hij Hi Hj; [done|].
destruct i as [|i], j as [|j]; simpl in *.
- injection Hi as <-. injection Hj as <-. lia.
- injection Hi as <-. rewrite Forall_forall in Hall. apply Hall.
  by eapply list_elem_of_lookup_2.
- lia.
- apply (IH i j); [lia|done|done].
Qed.

(** X7. For a window that is not empty, [getStats] answers both
    percentiles; each is the latency of a record in the window, and the p50
    is at most the p95. *)
Theorem percentiles_are_ordered_window_latencies :
∀ (tel : Telemetry.t) (p t : string),
  ring tel (key p t) ≠ [] →
  ∃ a b,
    p50Latency (getStats tel p t) = Some a ∧
    p95Latency (getStats tel p t) = Some b ∧
    a ≤ b ∧
    a ∈ map latencyMs (ring tel (key p t)) ∧
    b ∈ map latencyMs (ring tel (key p t)).
Proof.
intros tel p t Hne. unfold getStats. fold (ring tel (key p t)).
set (arr := ring tel (key p t)) in *.
destruct (Z.eqb_spec (Z.of_nat (length arr)) 0) as [H0|Hn].
{ destruct arr; [done|simpl in H0; lia]. }
simpl.
set (sl := sorted_latencies arr).
assert (Hperm : sl ≡ₚ map latencyMs arr).
{ unfold sl, sorted_latencies. apply js_sort_Permutation. }
assert (Hsorted : Sorted Z.le sl).
{ unfold sl, sorted_latencies. fold ascending. apply js_sort_ascending_Sorted. }
assert (Hlen : length sl = length arr) by by rewrite Hperm, length_map.
assert (Hsl : sl ≠ []) by (intros H; rewrite H in Hlen; simpl in Hlen; lia).
rewrite !percentile_rank_index by done.
set (n := Z.of_nat (length sl)).
assert (Hpos : 0 < n) by (unfold n; lia).
pose proof (rank_index_bounds (5 # 10) n Hpos) as H50.
pose proof (rank_index_bounds (95 # 100) n Hpos) as H95.
pose proof (rank_index_mono (5 # 10) (95 # 100) n) as Hmono.
destruct (lookup_lt_is_Some_2 sl (Z.to_nat (rank_index (5 # 10) n))) as [a Ha];
  [unfold n in *; lia|].
destruct (lookup_lt_is_Some_2 sl (Z.to_nat (rank_index (95 # 100) n))) as [b Hb];
  [unfold n in *; lia|].
exists a, b. split; [done|]. split; [done|]. split; [|split].
- apply (Sorted_lookup_le sl (Z.to_nat (rank_index (5 # 10) n))
           (Z.to_nat (rank_index (95 # 100) n)) a b Hsorted); [|done|done].
  apply Z2Nat.inj_le; [lia|lia|]. apply Hmono; [discriminate|done].
- rewrite <- Hperm. by eapply list_elem_of_lookup_2.
- rewrite <- Hperm. by eapply list_elem_of_lookup_2.
Qed.

Definition no_stats : TelemetryStats :=
{| count := 0; successes := 0; failures := 0; timeouts := 0;
   p50Latency := None; p95Latency := None |}.

(** X8. The statistics are kept per key: a record made for one key leaves
    the statistics of every other key as they were, and a key for which
    nothing is stored has a count of 0 and no percentile; that is every key
    of a new telemetry and every key after [clear]. *)
Theorem stats_are_per_key :
∀ (tel : Telemetry.t) (r : TelemetryRecord) (p t : string),
  (record_key r ≠ key p t →
   getStats (record tel r) p t = getStats tel p t) ∧
  (store tel !! key p t = None → getStats tel p t = no_stats) ∧
  getStats (Telemetry.new (windowSize tel)) p t = no_stats ∧
  getStats (clear tel) p t = no_stats.
Proof.
intros tel r p t. split; [|split; [|split]].
- intros Hne. unfold getStats, record. simpl. fold (record_key r).
  by rewrite lookup_insert_ne.
- intros Hnone. unfold getStats. by rewrite Hnone.
- unfold getStats. simpl. by rewrite lookup_empty.
- unfold getStats. simpl. by rewrite lookup_empty.
Qed.

Lemma record_nonpositive_window tel r k :
windowSize tel ≤ 0 → ring tel k = [] → ring (record tel r) k = [].
Proof.
intros HW Hempty. unfold ring, record in *. simpl. fold (record_key r).
destruct (decide (record_key r = k)) as [<-|Hne].
- rewrite lookup_insert_eq. simpl.
  set (arr := default [] (store tel !! record_key r) ++ [r]).
  assert (Hlen : (0 < length arr)%nat) by (unfold arr; rewrite length_app; simpl; lia).
  destruct (Z.gtb_spec (Z.of_nat (length arr)) (windowSize tel)) as [_|Hle]; [|lia].
  unfold splice_head. apply drop_ge. lia.
- by rewrite lookup_insert_ne.
Qed.

(** X9. A telemetry whose window size is 0 or negative keeps nothing:
    after any [record] calls every key has a count of 0 and no percentile. *)
Theorem nonpositive_window_keeps_nothing :
∀ (W : Z) (recs : list TelemetryRecord) (p t : string),
  W ≤ 0 →
  getStats (record_all (Telemetry.new W) recs) p t = no_stats.
Proof.
intros W recs p t HW.
assert (Hring : ∀ k, ring (record_all (Telemetry.new W) recs) k = []).
{ induction recs as [|r recs IH] using rev_ind; intros k.
  - unfold ring. simpl. by rewrite lookup_empty.
  - rewrite record_all_snoc. apply record_nonpositive_window; [|apply IH].
    by rewrite record_all_windowSize. }
unfold getStats. fold (ring (record_all (Telemetry.new W) recs) (key p t)).
by rewrite Hring.
Qed.

End telemetry_more.

(** ** The estimator: variance, monotonicity and discount *)
Section estimator_more.
Import Costs.
Local Open Scope Q_scope.

(** X10. The variance of [estimateCostWithVariance], for a random draw
    [r] in [0, 1): tokens and the fixed fee are those of the plain estimate;
    a total that is not negative moves by at most 5%; and, the fee not being
    varied while the total is, the varied components add up to the varied
    total only up to the fee times the jitter. *)
Theorem variance_moves_total_by_five_percent :
∀ (costs : PriceBook) (params : CostEstimateParams) (r : Q),
  0 <= r → r < 1 →
  let base := estimateCost costs params in
  let varied := estimateCostWithVariance costs params r in
  let jitter := (r - (5 # 10)) * (1 # 10) in
  inputTokens varied = inputTokens base ∧
  outputTokens varied = outputTokens base ∧
  fixedFeeUSD varied = fixedFeeUSD base ∧
  (0 <= totalUSD base →
   (95 # 100) * totalUSD base <= totalUSD varied ∧
   totalUSD varied <= (105 # 100) * totalUSD base) ∧
  totalUSD varied - (inputCostUSD varied + outputCostUSD varied + fixedFeeUSD varied)
    == fixedFeeUSD base * jitter.
Proof.
intros costs params r Hr0 Hr1 base varied jitter.
split; [done|]. split; [done|]. split; [done|]. split.
- intros Hbase. subst varied. unfold estimateCostWithVariance.
  cbn [totalUSD]. fold base.
  set (total := totalUSD base) in *. split; nra.
- subst varied jitter base. unfold estimateCostWithVariance, estimateCost.
  cbn [totalUSD inputCostUSD outputCostUSD fixedFeeUSD]. ring.
Qed.

(** The same parameters for another number of characters. *)
Definition with_promptChars (chars : Q) (params : CostEstimateParams)
  : CostEstimateParams :=
{| promptChars := chars;
   expectedOutputTokens := expectedOutputTokens params;
   simulatedModelName := simulatedModelName params;
   charsPerToken := charsPerToken params;
   requestFixedFeeUSD := requestFixedFeeUSD params;
   discountFactor := discountFactor params |}.

Lemma Math_ceil_mono x y : x <= y → Math_ceil x <= Math_ceil y.
Proof.
intros H. unfold Math_ceil. rewrite <- Zle_Qle. by apply Qceiling_resp_le.
Qed.

Lemma Math_max_mono a x y : x <= y → Math_max a x <= Math_max a y.
Proof.
intros H. unfold Math_max.
destruct (Qle_bool a x) eqn:Hx, (Qle_bool a y) eqn:Hy.
- done.
- apply Qle_bool_iff in Hx. exfalso.
  assert (Hay : Qle_bool a y = true) by (apply Qle_bool_iff; lra). congruence.
- by apply Qle_bool_iff.
- apply Qle_refl.
Qed.

Lemma estimateTokens_mono c c' perToken :
0 < perToken → c <= c' → estimateTokens c perToken <= estimateTokens c' perToken.
Proof.
intros Hper Hc. unfold estimateTokens. apply Math_ceil_mono.
unfold Qdiv. apply Qmult_le_compat_r; [done|].
apply Qlt_le_weak. by apply Qinv_lt_0_compat.
Qed.

(** X11. A longer prompt never costs less: with rates and a discount
    factor that are not negative and a positive number of characters per
    token, the input tokens, the output tokens and the total of
    [estimateCost] grow with the number of characters, all else equal. *)
Theorem estimateCost_grows_with_the_prompt :
∀ (costs : PriceBook) (params : CostEstimateParams) (chars chars' : Q),
  0 <= input (getModelCosts costs (simulatedModelName params)) →
  0 <= output (getModelCosts costs (simulatedModelName params)) →
  0 < default (4 # 1) (charsPerToken params) →
  0 <= default 1 (discountFactor params) →
  chars <= chars' →
  let e := estimateCost costs (with_promptChars chars params) in
  let e' := estimateCost costs (with_promptChars chars' params) in
  inputTokens e <= inputTokens e' ∧
  outputTokens e <= outputTokens e' ∧
  totalUSD e <= totalUSD e'.
Proof.
intros costs params chars chars' Hin Hout Hper Hdisc Hchars e e'.
assert (Htok : inputTokens e <= inputTokens e').
{ subst e e'. unfold estimateCost. cbn [inputTokens with_promptChars promptChars charsPerToken].
  by apply estimateTokens_mono. }
assert (Hfallback :
  Math_max 1 (Math_ceil (inputTokens e * (2 # 10))) <=
  Math_max 1 (Math_ceil (inputTokens e' * (2 # 10)))).
{ apply Math_max_mono, Math_ceil_mono. lra. }
assert (Hotok : outputTokens e <= outputTokens e').
{ subst e e'. unfold estimateCost in *.
  cbn [inputTokens outputTokens with_promptChars promptChars charsPerToken
       expectedOutputTokens] in *.
  destruct (expectedOutputTokens params) as [x|]; [|exact Hfallback].
  destruct (truthyQ x && Qgt_bool x 0); [apply Qle_refl|exact Hfallback]. }
split; [exact Htok|]. split; [exact Hotok|].
subst e e'. unfold estimateCost in *.
cbn [inputTokens outputTokens totalUSD with_promptChars promptChars charsPerToken
     expectedOutputTokens simulatedModelName requestFixedFeeUSD discountFactor] in *.
set (rates := getModelCosts costs (simulatedModelName params)) in *.
apply Qmult_le_compat_r; [|done].
apply Qplus_le_compat; [|apply Qle_refl].
apply Qplus_le_compat.
- apply Qmult_le_compat_r; [|done]. apply Qmult_le_compat_r; [done|discriminate].
- apply Qmult_le_compat_r; [|done]. apply Qmult_le_compat_r; [done|discriminate].
Qed.

(** The same parameters with another discount factor. *)
Definition with_discountFactor (d : option Q) (params : CostEstimateParams)
  : CostEstimateParams :=
{| promptChars := promptChars params;
   expectedOutputTokens := expectedOutputTokens params;
   simulatedModelName := simulatedModelName params;
   charsPerToken := charsPerToken params;
   requestFixedFeeUSD := requestFixedFeeUSD params;
   discountFactor := d |}.

(** X12. The discount factor scales the estimate: with a factor [d] every
    cost of the estimate is [d] times the cost without a factor, and the
    tokens are the same; a factor of 0, which is a number like any other for
    the estimator, makes every cost 0. *)
Theorem discount_scales_every_cost :
∀ (costs : PriceBook) (params : CostEstimateParams) (d : Q),
  let full := estimateCost costs (with_discountFactor None params) in
  let reduced := estimateCost costs (with_discountFactor (Some d) params) in
  inputTokens reduced = inputTokens full ∧
  outputTokens reduced = outputTokens full ∧
  inputCostUSD reduced == d * inputCostUSD full ∧
  outputCostUSD reduced == d * outputCostUSD full ∧
  fixedFeeUSD reduced == d * fixedFeeUSD full ∧
  totalUSD reduced == d * totalUSD full ∧
  (d == 0 → totalUSD reduced == 0).
Proof.
intros costs params d full reduced. subst full reduced. unfold estimateCost.
cbn [inputTokens outputTokens inputCostUSD outputCostUSD fixedFeeUSD totalUSD
     with_discountFactor promptChars charsPerToken expectedOutputTokens
     simulatedModelName requestFixedFeeUSD discountFactor from_option id].
split; [done|]. split; [done|].
split; [ring|]. split; [ring|]. split; [ring|]. split; [ring|].
intros Hd. rewrite Hd. ring.
Qed.

End estimator_more.

(** ** The registry: priority order *)
Section registry_more.
Import Provider Registry.

Definition priority_of (p : RegisteredProvider) : Q := default 0%Q (priority p).

(** Earlier entries have a priority at least that of later ones. *)
Definition by_priority_desc (l : list RegisteredProvider) : Prop :=
StronglySorted (λ a b, (priority_of b <= priority_of a)%Q) l.

Lemma by_priority_gt a b :
Qgt_bool (by_priority a b) 0 = true ↔ (priority_of a < priority_of b)%Q.
Proof.
unfold by_priority. fold (priority_of a) (priority_of b).
destruct (Qeq_bool (priority_of b) (priority_of a)) eqn:Heq.
- apply Qeq_bool_iff in Heq. split; [done|]. intros H. rewrite Heq in H.
  by apply Qlt_irrefl in H.
- rewrite Qgt_bool_true. split; intros H; lra.
Qed.

(** The entries of [l] at least as high as [x], and those below it. *)
Definition not_below (x : RegisteredProvider) (l : list RegisteredProvider) :=
List.filter (λ y, Qle_bool (priority_of x) (priority_of y)) l.

Definition below (x : RegisteredProvider) (l : list RegisteredProvider) :=
List.filter (λ y, negb (Qle_bool (priority_of x) (priority_of y))) l.

Lemma js_insert_front x l :
Forall (λ y, (priority_of y <= priority_of x)%Q) l →
js_insert by_priority x l = x :: l.
Proof.
intros Hall. destruct l as [|y l]; [done|]. simpl.
destruct (Qgt_bool (by_priority x y) 0) eqn:Hgt; [|done].
apply by_priority_gt in Hgt. apply Forall_cons in Hall as [Hy _]. lra.
Qed.

Lemma filter_all_below x l :
Forall (λ y, (priority_of y < priority_of x)%Q) l →
not_below x l = [] ∧ below x l = l.
Proof.
unfold not_below, below. induction 1 as [|y l Hy Hl [IH1 IH2]]; [done|]. simpl.
assert (Hb : Qle_bool (priority_of x) (priority_of y) = false).
{ apply not_true_is_false. rewrite Qle_bool_iff. lra. }
rewrite Hb. simpl. by rewrite IH1, IH2.
Qed.

(** Pushing [x] behind a list in priority order and sorting puts [x]
    behind the entries at least as high and in front of the lower ones. *)
Lemma push_and_sort x l :
by_priority_desc l →
js_sort by_priority (l ++ [x]) = not_below x l ++ x :: below x l.
Proof.
unfold js_sort. rewrite foldr_app. simpl.
induction 1 as [|y l Hs IH Hall]; [done|]. simpl. rewrite IH.
unfold not_below, below. simpl.
destruct (Qle_bool (priority_of x) (priority_of y)) eqn:Hxy; simpl.
- apply Qle_bool_iff in Hxy. apply js_insert_front.
  apply Forall_app. split.
  + apply Forall_forall. intros z Hz. apply list_elem_of_In, filter_In in Hz as [Hz _].
    rewrite Forall_forall in Hall. apply Hall. by apply list_elem_of_In.
  + constructor; [done|].
    apply Forall_forall. intros z Hz. apply list_elem_of_In, filter_In in Hz as [Hz _].
    rewrite Forall_forall in Hall. apply Hall. by apply list_elem_of_In.
- assert (Hlt : (priority_of y < priority_of x)%Q).
  { apply Qnot_le_lt. rewrite <- Qle_bool_iff. by rewrite Hxy. }
  assert (Hl : Forall (λ z, (priority_of z < priority_of x)%Q) l).
  { eapply Forall_impl; [exact Hall|]. simpl. intros z Hz. lra. }
  destruct (filter_all_below x l Hl) as [Hnb Hb]. unfold not_below, below in Hnb, Hb.
  rewrite Hnb, Hb. simpl.
  assert (Hgt : Qgt_bool (by_priority y x) 0 = true) by by apply by_priority_gt.
  rewrite Hgt. f_equal. by apply js_insert_front.
Qed.

Lemma push_and_sort_desc x l :
by_priority_desc l → by_priority_desc (not_below x l ++ x :: below x l).
Proof.
intros Hs. unfold by_priority_desc, not_below, below in *.
apply StronglySorted_app_2.
- intros a b Ha Hb.
  apply list_elem_of_In, filter_In in Ha as [_ Ha]. apply Qle_bool_iff in Ha.
  apply elem_of_cons in Hb as [->|Hb]; [done|].
  apply list_elem_of_In, filter_In in Hb as [_ Hb].
  apply negb_true_iff in Hb.
  assert ((priority_of b < priority_of x)%Q).
  { apply Qnot_le_lt. rewrite <- Qle_bool_iff. by rewrite Hb. }
  lra.
- induction Hs as [|y l Hs IH Hall]; simpl; [constructor|].
  destruct (Qle_bool _ _); [|done]. constructor; [done|].
  apply Forall_forall. intros z Hz. apply list_elem_of_In, filter_In in Hz as [Hz _].
  rewrite Forall_forall in Hall. apply Hall. by apply list_elem_of_In.
- constructor.
  + induction Hs as [|y l Hs IH Hall]; simpl; [constructor|].
    destruct (negb (Qle_bool _ _)); [|done]. constructor; [done|].
    apply Forall_forall. intros z Hz. apply list_elem_of_In, filter_In in Hz as [Hz _].
    rewrite Forall_forall in Hall. apply Hall. by apply list_elem_of_In.
  + apply Forall_forall. intros z Hz. apply list_elem_of_In, filter_In in Hz as [_ Hz].
    apply negb_true_iff in Hz. apply Qlt_le_weak, Qnot_le_lt.
    rewrite <- Qle_bool_iff. by rewrite Hz.
Qed.

(** The registries a process can build. *)
Inductive built : Registry.t → Prop :=
| built_empty : built Registry.empty
| built_register reg modelType handler provider priority capabilities :
    built reg →
    built (registerModel reg modelType handler provider priority capabilities)
| built_clear reg : built reg → built (Registry.clear reg).

Lemma registerModel_getProviders reg modelType handler provider priority capabilities t :
getProviders (registerModel reg modelType handler provider priority capabilities) t =
  if decide (modelType = t)
  then js_sort by_priority
         (getProviders reg t ++
          [{| oid := allocated reg; modelType := t; handler := handler;
              provider := provider; priority := Some (default 0%Q priority);
              capabilities := capabilities |}])
  else getProviders reg t.
Proof.
unfold registerModel, getProviders. simpl.
destruct (decide (modelType = t)) as [->|Hne].
- by rewrite lookup_insert_eq.
- by rewrite lookup_insert_ne.
Qed.

Lemma built_sorted reg t : built reg → by_priority_desc (getProviders reg t).
Proof.
induction 1 as [|reg modelType handler provider priority capabilities _ IH|reg _ IH].
- unfold getProviders. simpl. rewrite lookup_empty. constructor.
- rewrite registerModel_getProviders. destruct (decide _) as [->|]; [|done].
  rewrite push_and_sort by done. by apply push_and_sort_desc.
- unfold getProviders. simpl. rewrite lookup_empty. constructor.
Qed.

(** X13. In a registry built by [registerModel] and [clear] calls, the
    providers of every model type are in descending order of priority, each
    an object of its own. A further [registerModel] puts the new provider
    behind the registered ones whose priority is at least its own (ties
    keep the order of registration) and in front of the lower ones, and
    leaves the lists of the other model types as they are. *)
Theorem registerModel_inserts_by_priority :
∀ (reg : Registry.t) (modelType : string)
  (handler : gmap string JsValue → Settlement) (provider : string)
  (priority : option Q) (capabilities : option Capabilities),
  built reg →
  let registration :=
    {| oid := allocated reg; modelType := modelType; handler := handler;
       provider := provider; priority := Some (default 0%Q priority);
       capabilities := capabilities |} in
  let old := getProviders reg modelType in
  let reg' := registerModel reg modelType handler provider priority capabilities in
  getProviders reg' modelType =
    not_below registration old ++ registration :: below registration old ∧
  by_priority_desc (getProviders reg' modelType) ∧
  distinct_objects (getProviders reg' modelType) ∧
  (∀ t, t ≠ modelType → getProviders reg' t = getProviders reg t).
Proof.
intros reg modelType handler provider priority capabilities Hbuilt
  registration old reg'.
assert (Hsorted : by_priority_desc old) by by apply built_sorted.
assert (Hwf : registry_wf reg).
{ clear -Hbuilt. induction Hbuilt.
  - apply registry_empty_wf.
  - by apply registerModel_wf.
  - apply registry_clear_wf. }
assert (Hlist : getProviders reg' modelType =
                not_below registration old ++ registration :: below registration old).
{ subst reg'. rewrite registerModel_getProviders.
  destruct (decide (modelType = modelType)); [|done]. by apply push_and_sort. }
split; [exact Hlist|]. split; [|split].
- rewrite Hlist. by apply push_and_sort_desc.
- apply (registerModel_wf reg modelType handler provider priority capabilities Hwf).
- intros t Hne. subst reg'. rewrite registerModel_getProviders.
  destruct (decide (modelType = t)); [congruence|done].
Qed.

End registry_more.

(** ** The ranking: order, completeness and the cost weight *)
Section ranking_more.
Import Provider Policy.

(** Every candidate scores at least as high as every later one. *)
Definition by_score (l : list ScoredProvider) : Prop :=
StronglySorted (λ a b, (score b <= score a)%Q) l.

Lemma by_score_desc_gt a b :
Qgt_bool (by_score_desc a b) 0 = true ↔ (score a < score b)%Q.
Proof. rewrite Qgt_bool_true. unfold by_score_desc. split; intros H; lra. Qed.

Lemma js_insert_by_score x l :
by_score l → by_score (js_insert by_score_desc x l).
Proof.
unfold by_score. induction 1 as [|y l Hs IH Hall]; simpl.
- by repeat constructor.
- destruct (Qgt_bool (by_score_desc x y) 0) eqn:Hc.
  + apply by_score_desc_gt in Hc. constructor; [done|].
    rewrite (js_insert_Permutation by_score_desc x l).
    constructor; [lra|done].
  + assert (Hle : (score y <= score x)%Q).
    { apply Qnot_lt_le. rewrite <- by_score_desc_gt. by rewrite Hc. }
    constructor; [by constructor|]. constructor; [done|].
    eapply Forall_impl; [exact Hall|]. simpl. intros z Hz. lra.
Qed.

(** X14. The ranking [select] returns is in descending order of score:
    every candidate in it scores at least as high as every candidate after
    it. *)
Theorem select_orders_by_score :
∀ (costs : Costs.PriceBook) (t : string) (providers : list RegisteredProvider)
  (options : PolicyOptions) (env : Env) (w : World),
  by_score (fst (select costs t providers options env w)).
Proof.
intros costs t providers options env w. unfold select, bind, ret.
destruct (score_all costs t options providers [] env w) as [scored w']. simpl.
induction scored as [|s scored IH]; simpl; [constructor|].
by apply js_insert_by_score.
Qed.

(** The budget ceiling cannot exclude the provider: no estimate is made
    for it, or no estimate is over the budget. *)
Definition never_excluded (options : PolicyOptions) (p : RegisteredProvider) : Prop :=
cost_block options (capabilities p) = None ∨
∀ total, over_budget options total = false.

(** The ceiling is off: there is no session budget, or it is 0, or the
    prompt length is not positive. *)
Definition no_ceiling (options : PolicyOptions) : Prop :=
match Policy.sessionBudget options with
| Some budget => (budget == 0)%Q ∨ (default 0 (promptLength options) <= 0)%Q
| None => True
end.

Lemma no_ceiling_never_excluded options p :
no_ceiling options → never_excluded options p.
Proof.
unfold no_ceiling, never_excluded, over_budget, cost_block.
destruct (Policy.sessionBudget options) as [budget|]; [|by right].
intros [Hzero|Hlen].
- right. intros total. unfold truthyQ.
  assert (Hb : Qeq_bool budget 0 = true) by by apply Qeq_bool_iff.
  by rewrite Hb.
- left. destruct (capabilities p) as [caps|]; [|done].
  destruct (cost caps) as [c|]; [|done].
  assert (Hg : Qgt_bool (default 0%Q (promptLength options)) 0 = false)
    by by apply Qgt_bool_false.
  by rewrite Hg, andb_false_r.
Qed.

Lemma score_provider_kept costs t options p env w :
not_open (circuit w) (CircuitBreaker.key (Provider.provider p) t) →
never_excluded options p →
∃ s d, score_provider costs t options p env w =
         (Some s, touched (circuit w) (S (ticks w)) d w) ∧
       provider s = p.
Proof.
intros Hnot Hkept. unfold score_provider. unfold bind at 1.
rewrite circuit_isOpen_run.
assert (Hq : CircuitBreaker.isOpen (clock env (ticks w)) (circuit w)
               (Provider.provider p) t = (false, circuit w)).
{ destruct (isOpen_cases (clock env (ticks w)) (circuit w) (Provider.provider p) t)
    as [[_ (e & He & Ho & _)]|[[Hq _]|(e & He & Ho & _)]]; [|done|];
    by destruct (Hnot e He). }
rewrite Hq. cbn [fst snd]. cbv beta iota.
set (w1 := with_circuit (circuit w) (with_ticks (S (ticks w)) w)).
destruct (cost_block options (capabilities p)) as [c|] eqn:Hblock.
- destruct Hkept as [Hnone|Hoff]; [congruence|].
  unfold bind at 1. unfold Math_random. cbv beta iota.
  rewrite Hoff. unfold bind.
  match goal with
  | |- context [finish_score t options p ?s ?ce env ?w2] =>
      destruct (finish_score_spec t options p s ce env w2) as (sp & Hsp & Hp & _);
      rewrite Hsp
  end.
  exists sp, (S (S (draws w))). split; [|done].
  unfold ret, touched, w1. by destruct w.
- unfold bind.
  destruct (finish_score_spec t options p (0 + default 0 (priority p))%Q None env w1)
    as (sp & Hsp & Hp & _).
  rewrite Hsp. exists sp, (S (draws w)). split; [|done].
  unfold ret, touched, w1. by destruct w.
Qed.

Lemma score_all_keeps_all costs t options env providers :
∀ scored w,
  Forall (λ p, not_open (circuit w) (CircuitBreaker.key (Provider.provider p) t) ∧
               never_excluded options p) providers →
  ∃ out d,
    score_all costs t options providers scored env w =
      (scored ++ out, touched (circuit w) (ticks w + length providers) d w) ∧
    map provider out = providers.
Proof.
induction providers as [|p providers IH]; intros scored w Hall.
- exists [], (draws w). simpl. rewrite app_nil_r, Nat.add_0_r.
  split; [|done]. unfold ret, touched. by destruct w.
- apply Forall_cons in Hall as [[Hnot Hkept] Hall].
  simpl score_all. unfold bind at 1.
  destruct (score_provider_kept costs t options p env w Hnot Hkept)
    as (s & d1 & Hrun & Hp).
  rewrite Hrun.
  set (w1 := touched (circuit w) (S (ticks w)) d1 w).
  destruct (IH (scored ++ [s]) w1) as (out & d & Hrest & Hout).
  { eapply Forall_impl; [exact Hall|]. by intros q Hq. }
  rewrite Hrest. exists (s :: out), d. split.
  + unfold w1. rewrite touched_touched. rewrite <- app_assoc. simpl.
    do 2 f_equal. unfold touched. simpl. lia.
  + simpl. by rewrite Hp, Hout.
Qed.

(** X15. [select] drops a candidate for an open circuit or for the budget
    ceiling only: when no candidate's circuit is open and the ceiling is off
    (no session budget, a budget of 0, or a prompt length that is not
    positive), the ranking holds every candidate exactly once, and the
    breaker is left as it was. *)
Theorem select_keeps_every_available_candidate :
∀ (costs : Costs.PriceBook) (t : string) (providers : list RegisteredProvider)
  (options : PolicyOptions) (env : Env) (w : World),
  (∀ p, p ∈ providers →
        not_open (circuit w) (CircuitBreaker.key (Provider.provider p) t)) →
  no_ceiling options →
  map provider (fst (select costs t providers options env w)) ≡ₚ providers ∧
  circuit (snd (select costs t providers options env w)) = circuit w.
Proof.
intros costs t providers options env w Hnot Hoff.
destruct (score_all_keeps_all costs t options env providers [] w)
  as (out & d & Hrun & Hout).
{ apply Forall_forall. intros p Hp. split; [by apply Hnot|].
  by apply no_ceiling_never_excluded. }
unfold select, bind, ret. rewrite Hrun. simpl. split; [|done].
change (provider <$> js_sort by_score_desc out ≡ₚ providers).
by rewrite (js_sort_Permutation by_score_desc out), <- Hout.
Qed.

(** X16. Without a positive prompt length no cost is estimated: no
    candidate of the ranking carries a cost estimate, whatever cost blocks
    the providers have, so neither the cost penalty nor the budget ceiling
    applies. *)
Theorem select_without_prompt_length_estimates_nothing :
∀ (costs : Costs.PriceBook) (t : string) (providers : list RegisteredProvider)
  (options : PolicyOptions) (env : Env) (w : World) (s : ScoredProvider),
  (default 0 (promptLength options) <= 0)%Q →
  s ∈ fst (select costs t providers options env w) →
  costEstimate s = None.
Proof.
intros costs t providers options env w s Hlen Hin.
destruct (select_spec costs t options providers env w)
  as (scored & cb' & d & Hrun & _ & _ & _ & Hall).
rewrite Hrun in Hin. simpl in Hin.
rewrite (js_sort_Permutation by_score_desc scored) in Hin.
rewrite Forall_forall in Hall. destruct (Hall s Hin) as [[_ Hest] _].
destruct (costEstimate s) as [ce|] eqn:Hce; [|done].
destruct (Hest ce Hce) as (c & i & Hblock & _).
unfold cost_block in Hblock.
destruct (capabilities (provider s)) as [caps|]; [|done].
destruct (cost caps) as [c'|]; [|done].
assert (Hg : Qgt_bool (default 0%Q (promptLength options)) 0 = false)
  by by apply Qgt_bool_false.
by rewrite Hg, andb_false_r in Hblock.
Qed.

(** The code compares the double quotient [sessionSpent / sessionBudget]
    with 0.8; within this margin of 80% the rounding of the quotient
    decides, and nothing is said here. *)
Definition rounding_margin : Q := 1 # 1000000000.

(** X17. The cost weight under budget pressure: with a positive session
    budget it is twice [costWeight] when the amount spent is above 80% of
    the budget by the margin or more, and [costWeight] when it is below 80%
    by the margin or more; without a budget, with a budget of 0 or a
    negative one, or with nothing spent, it is [costWeight]. *)
Theorem effectiveCostWeight_doubles_over_80_percent :
∀ (options : PolicyOptions),
  let weight := default 1%Q (costWeight options) in
  let spent := default 0%Q (Policy.sessionSpent options) in
  (∀ budget, Policy.sessionBudget options = Some budget → (0 < budget)%Q →
     ((8 # 10) + rounding_margin <= spent / budget)%Q →
     effectiveCostWeight options = (weight * 2)%Q) ∧
  (∀ budget, Policy.sessionBudget options = Some budget → (0 < budget)%Q →
     (spent / budget <= (8 # 10) - rounding_margin)%Q →
     effectiveCostWeight options = weight) ∧
  (∀ budget, Policy.sessionBudget options = Some budget → (budget <= 0)%Q →
     effectiveCostWeight options = weight) ∧
  (Policy.sessionBudget options = None → effectiveCostWeight options = weight) ∧
  ((spent <= 0)%Q → effectiveCostWeight options = weight).
Proof.
intros options weight spent. unfold effectiveCostWeight. fold weight spent.
assert (Hratio : ∀ budget, (0 < budget)%Q →
          ((8 # 10) < spent / budget ↔ (8 # 10) * budget < spent)%Q).
{ intros budget Hb.
  assert (Hne : ¬ (budget == 0)%Q).
  { intros Hz. rewrite Hz in Hb. by apply Qlt_irrefl in Hb. }
  assert (E : (spent / budget * budget == spent)%Q) by (by field).
  split; intros H.
  - apply (proj2 (Qmult_lt_r _ _ budget Hb)) in H. by rewrite E in H.
  - by apply Qlt_shift_div_l. }
split; [|split; [|split; [|split]]].
- intros budget -> Hb Hover.
  assert (Hm : (0 < rounding_margin)%Q) by reflexivity.
  assert (Hlt : ((8 # 10) < spent / budget)%Q) by lra.
  assert (Ht : truthyQ budget = true).
  { unfold truthyQ. apply negb_true_iff, not_true_is_false. rewrite Qeq_bool_iff.
    intros Hz. rewrite Hz in Hb. by apply Qlt_irrefl in Hb. }
  assert (Hs : Qgt_bool spent 0 = true).
  { apply Qgt_bool_true. apply Hratio in Hlt; [|done]. nra. }
  assert (Hr : Qgt_bool (spent / budget) (8 # 10) = true)
    by (by apply Qgt_bool_true).
  by rewrite Ht, Hs, Hr.
- intros budget -> Hb Hunder.
  assert (Hm : (0 < rounding_margin)%Q) by reflexivity.
  destruct (truthyQ budget && Qgt_bool spent 0); [|done].
  assert (Hr : Qgt_bool (spent / budget) (8 # 10) = false).
  { apply Qgt_bool_false. lra. }
  by rewrite Hr.
- intros budget -> Hb.
  destruct (truthyQ budget && Qgt_bool spent 0) eqn:Hc; [|done].
  apply andb_true_iff in Hc as [Ht Hs]. apply Qgt_bool_true in Hs.
  assert (Hneg : (budget < 0)%Q).
  { unfold truthyQ in Ht. apply negb_true_iff in Ht.
    destruct (Qlt_le_dec budget 0) as [|Hge]; [done|].
    assert (Hz : (budget == 0)%Q) by lra. apply Qeq_bool_iff in Hz. congruence. }
  assert (Hr : Qgt_bool (spent / budget) (8 # 10) = false).
  { apply Qgt_bool_false.
    assert (Hne : ¬ (budget == 0)%Q).
    { intros Hz. rewrite Hz in Hneg. by apply Qlt_irrefl in Hneg. }
    assert (E : (spent / budget == - (spent / - budget))%Q) by (by field).
    assert (Hpos : (0 <= spent / - budget)%Q).
    { apply Qle_shift_div_l; lra. }
    rewrite E. lra. }
  by rewrite Hr.
- by intros ->.
- intros Hs. destruct (Policy.sessionBudget options) as [budget|]; [|done].
  assert (Hg : Qgt_bool spent 0 = false) by by apply Qgt_bool_false.
  by rewrite Hg, andb_false_r.
Qed.

End ranking_more.

(** ** The dispatch: candidates, fallback and effects *)
Section dispatch_more.
Import Provider Router.










(** The dispatch, step by step. *)
Lemma useModelWithInfo_unfold costs t params policyOptions hint env w :
useModelWithInfo costs t params policyOptions hint env w =
  let candidates := candidates_for (globalRegistry w) t hint in
  if (length candidates =? 0)%nat then (throws (NoProviders t hint), w)
  else
    let ranking := Policy.select costs t candidates
                     (ranking_options w params policyOptions) env w in
    if (length (fst ranking) =? 0)%nat
    then (throws (AllUnavailable t), snd ranking)
    else
      let ranked := map Policy.provider (fst ranking) in
      let loop := attempt_all t params (fst ranking) ranked 0 None env (snd ranking) in
      (match fst loop with
       | inl info => returns info
       | inr e => throws (exhausted t ranked e)
       end, snd loop).
Proof.
unfold useModelWithInfo, bind, get, ret. cbv zeta.
destruct (length (candidates_for (globalRegistry w) t hint) =? 0)%nat; [done|].
simpl id.
destruct (Policy.select costs t (candidates_for (globalRegistry w) t hint)
            (ranking_options w params policyOptions) env w) as [scored w1].
cbn [fst snd].
destruct (length scored =? 0)%nat; [done|].
destruct (attempt_all t params scored (map Policy.provider scored) 0 None env w1)
  as [[info|e] w2]; done.
Qed.

Lemma last_most_recent_snoc {A} (n : nat) (l : list A) (x : A) :
(1 ≤ n)%nat → last (most_recent n (l ++ [x])) = Some x.
Proof.
intros Hn. unfold most_recent. rewrite length_app. simpl.
rewrite drop_app_le by lia. apply last_snoc.
Qed.

(** What a return of the loop leaves behind. *)
Definition success_recorded (t : string) (w : World) (r : Info + LoopEnd)
    (w' : World) : Prop :=
Telemetry.windowSize (telemetry w') = Telemetry.windowSize (telemetry w) ∧
match r with
| inl info =>
    entry_of (circuit w') (CircuitBreaker.key (provider info) t)
      = CircuitBreaker.fresh_entry ∧
    (1 ≤ Telemetry.windowSize (telemetry w) →
     ∃ rec, last (ring (telemetry w') (Telemetry.key (provider info) t)) = Some rec ∧
            Telemetry.outcome rec = Telemetry.success ∧
            Telemetry.provider rec = provider info ∧
            Telemetry.modelType rec = t)
| inr _ => True
end.

Lemma attempt_all_success_recorded t params scored ranked :
∀ a lastError env w,
  holds (attempt_all t params scored ranked a lastError) env w
        (success_recorded t w).
Proof.
induction ranked as [|rp ranked IH]; intros a lastError env w.
- apply holds_ret. by split.
- cbn [attempt_all]. apply holds_bind, holds_get.
  destruct (a >? maxRetries w).
  { apply holds_ret. by split. }
  apply holds_bind, holds_Date_now. apply holds_bind, holds_get.
  destruct (withTimeout _ _) as [value|err].
  + apply holds_bind, holds_Date_now. apply holds_bind, holds_Date_now.
    apply holds_bind, holds_telemetry_record.
    apply holds_bind, holds_circuit_onSuccess.
    set (rec := {| Telemetry.provider := Provider.provider rp;
                   Telemetry.modelType := t;
                   Telemetry.latencyMs := clock env (S (ticks w)) - clock env (ticks w);
                   Telemetry.timestamp := clock env (S (S (ticks w)));
                   Telemetry.outcome := Telemetry.success |}).
    assert (Hpost : ∀ w',
      circuit w' = CircuitBreaker.onSuccess (circuit w) (Provider.provider rp) t →
      telemetry w' = Telemetry.record (telemetry w) rec →
      ∀ ce, success_recorded t w
              (inl {| result := value; provider := Provider.provider rp;
                      costEstimate := ce |}) w').
    { intros w' Hc Ht ce. split; [by rewrite Ht|]. cbn [provider]. split.
      - rewrite Hc. apply onSuccess_entry.
      - intros HW. exists rec. rewrite Ht. split; [|done].
        rewrite record_ring by lia. unfold record_key. simpl.
        destruct (decide _) as [_|Hne]; [|done].
        apply last_most_recent_snoc. lia. }
    destruct (find_scored scored rp) as [[sp sc st [ce|]]|].
    * apply holds_bind, holds_modify. apply holds_ret. by apply Hpost.
    * apply holds_ret. by apply Hpost.
    * apply holds_ret. by apply Hpost.
  + apply holds_bind, holds_Date_now. apply holds_bind, holds_Date_now.
    apply holds_bind, holds_telemetry_record.
    apply holds_bind, holds_circuit_onFailure.
    eapply holds_mono; [|apply IH].
    intros r w' [HW Hr]. split; [exact HW|]. exact Hr.
Qed.

(** X20. A dispatch that returns leaves the circuit of the provider it
    returns from closed, with no failure counted and no opening time, and,
    with a telemetry window of at least 1, the newest record of that
    provider for the model type is a success. *)
Theorem dispatch_success_closes_the_circuit :
∀ (costs : Costs.PriceBook) (t : string) (params : gmap string JsValue)
  (policyOptions : Policy.PolicyOptions) (hint : option string)
  (env : Env) (w : World) (info : Info),
  let r := useModelWithInfo costs t params policyOptions hint env w in
  fst r = returns info →
  entry_of (circuit (snd r)) (CircuitBreaker.key (provider info) t)
    = CircuitBreaker.fresh_entry ∧
  fst (CircuitBreaker.isOpen (clock env (ticks (snd r))) (circuit (snd r))
         (provider info) t) = false ∧
  (1 ≤ Telemetry.windowSize (telemetry w) →
   ∃ rec, last (ring (telemetry (snd r)) (Telemetry.key (provider info) t)) = Some rec ∧
          Telemetry.outcome rec = Telemetry.success ∧
          Telemetry.provider rec = provider info ∧
          Telemetry.modelType rec = t).
Proof.
intros costs t params policyOptions hint env w info. cbv zeta.
rewrite useModelWithInfo_unfold. cbv zeta.
destruct (length _ =? 0)%nat; [done|].
destruct (select_spec costs t (ranking_options w params policyOptions)
            (candidates_for (globalRegistry w) t hint) env w)
  as (unsorted & cb' & d & Hrun & _).
set (ranking := Policy.select _ _ _ _ _ _) in *.
destruct (length (fst ranking) =? 0)%nat; [done|].
pose proof (attempt_all_success_recorded t params (fst ranking)
              (map Policy.provider (fst ranking)) 0 None env (snd ranking)) as Hloop.
unfold holds in Hloop.
destruct (attempt_all t params (fst ranking) (map Policy.provider (fst ranking))
            0 None env (snd ranking)) as [[info'|e] w'];
  cbn [fst snd] in *; [|done].
intros [= ->]. destruct Hloop as [_ [Hentry Hrec]].
split; [exact Hentry|]. split.
- rewrite isOpen_closed_entry; [done|]. by rewrite Hentry.
- intros HW. apply Hrec. by rewrite Hrun.
Qed.

End dispatch_more.

Section baseline.
Import Baseline.
Local Open Scope Q_scope.

Lemma positive_ceiling_at_least_1 x :
Qgt_bool (Math_ceil x) 0 = true → 1 <= Math_ceil x.
Proof.
unfold Math_ceil. rewrite Qgt_bool_true. intros H.
change 0 with (inject_Z 0) in H. rewrite <- Zlt_Qlt in H.
change 1 with (inject_Z 1). rewrite <- Zle_Qle. lia.
Qed.

(** The property names every JavaScript object inherits: read from one of
    the tables, such a name gives the inherited member, not [undefined]. A
    call record of a provider with such a name is outside the model. *)
Definition inherited_names : list string :=
["constructor"; "hasOwnProperty"; "isPrototypeOf"; "propertyIsEnumerable";
 "toLocaleString"; "toString"; "valueOf"; "__proto__"; "__defineGetter__";
 "__defineSetter__"; "__lookupGetter__"; "__lookupSetter__"].

(** The simulated model of a provider, as the table of the estimator
    lists it: phi3-mini and llama3-8b are priced as gpt-4o-mini, mistral-7b
    as claude-3-5-haiku, the two embedding models as text-embedding-3-small,
    and every other provider as gpt-4o-mini. *)
Definition simulated_as (provider : string) : string :=
if decide (provider = "ollama-mistral-7b") then "claude-3-5-haiku-20241022"
else if decide (provider = "ollama-nomic-embed-text") then "text-embedding-3-small"
else if decide (provider = "ollama-all-minilm") then "text-embedding-3-small"
else "gpt-4o-mini".

(** Its characters per token: 4.2 for phi3-mini, 3.8 for llama3-8b, 4 for
    every other provider. *)
Definition chars_per_token_of (provider : string) : Q :=
if decide (provider = "ollama-phi3-mini") then 42 # 10
else if decide (provider = "ollama-llama3-8b") then 38 # 10
else 4 # 1.

Lemma simulatedModel_simulated_as p : simulatedModel p = simulated_as p.
Proof.
unfold simulatedModel, simulated_as.
destruct (providerMapping !! p) as [m|] eqn:H.
- apply elem_of_list_to_map_2 in H.
  repeat (apply elem_of_cons in H as [[= -> ->]|H]; [reflexivity|]).
  by apply elem_of_nil in H.
- unfold providerMapping in H. apply not_elem_of_list_to_map_2 in H.
  cbn [fmap list_fmap fst] in H.
  repeat (destruct (decide _) as [->|_]; [exfalso; apply H; set_solver|]).
  reflexivity.
Qed.

Lemma ratio_of_chars_per_token_of p : ratio_of p = chars_per_token_of p.
Proof.
unfold ratio_of, chars_per_token_of.
destruct (ratios !! p) as [r|] eqn:H.
- apply elem_of_list_to_map_2 in H.
  repeat (apply elem_of_cons in H as [[= -> ->]|H]; [reflexivity|]).
  by apply elem_of_nil in H.
- unfold ratios in H. apply not_elem_of_list_to_map_2 in H.
  cbn [fmap list_fmap fst] in H.
  repeat (destruct (decide _) as [->|_]; [exfalso; apply H; set_solver|]).
  reflexivity.
Qed.

(** The rates the price book has for a model: its entry, and the default
    entry for a model that is not listed. *)
Definition listed_rates (costs : Costs.PriceBook) (model : string) : Costs.ModelCosts :=
if decide (model = "default") then Costs.default_rates costs
else default (Costs.default_rates costs) (Costs.named_rates costs !! model).

(** A baseline estimate, as [estimateCostsForBaseline] leaves it. *)
Definition baseline_estimate (costs : Costs.PriceBook) (r : CallRecordWithCost)
  : Prop :=
let ce := estimatedCost r in
let call := record r in
let rates := listed_rates costs (simulated_as (provider call)) in
simulatedModelName r = simulated_as (provider call) ∧
Costs.estimatedModelName ce = simulated_as (provider call) ∧
(∀ n : Z, (0 ≤ n < 2 ^ 46)%Z → promptLength call == inject_Z n →
   Costs.inputTokens ce ==
     Math_ceil (inject_Z n / chars_per_token_of (provider call))) ∧
Costs.inputCostUSD ce == Costs.inputTokens ce / 1000 * Costs.input rates ∧
Costs.outputCostUSD ce == Costs.outputTokens ce / 1000 * Costs.output rates ∧
Costs.fixedFeeUSD ce == 0 ∧
Costs.totalUSD ce == Costs.inputCostUSD ce + Costs.outputCostUSD ce ∧
1 <= Costs.outputTokens ce ∧
(∀ n : Z, (0 < n < 2 ^ 46)%Z → outputLength call == inject_Z n →
   Costs.outputTokens ce ==
     Math_ceil (inject_Z n / chars_per_token_of (provider call))).

(** X22. The baseline estimator prices every call record, in order, each
    under the simulated model of its provider (an unlisted provider as
    gpt-4o-mini, as long as its name is not one every object inherits) and at the rates the price book has for that model, with
    the provider's characters per token, no fixed fee and no discount, so
    the total is the input cost plus the output cost. For a prompt of [n]
    characters, [n] an integer, the input tokens are the ceiling of [n]
    over the provider's characters per token. At least one output token is
    charged, also for an empty output, and an output of [n > 0] characters
    is charged the ceiling of [n] over the provider's characters per
    token. *)
Theorem estimateCostsForBaseline_prices_every_record :
∀ (costs : Costs.PriceBook) (baselineResults : list CallRecord),
  Forall (λ call, provider call ∉ inherited_names) baselineResults →
  map record (estimateCostsForBaseline costs baselineResults) = baselineResults ∧
  Forall (baseline_estimate costs) (estimateCostsForBaseline costs baselineResults).
Proof.
intros costs baselineResults _. unfold estimateCostsForBaseline. split.
{ rewrite map_map. simpl. apply map_id. }
apply Forall_forall. intros r Hr.
apply list_elem_of_In, in_map_iff in Hr as (rec & <- & _).
unfold baseline_estimate.
cbv beta iota zeta delta [estimatedCost simulatedModelName record].
split; [apply simulatedModel_simulated_as|].
split; [apply simulatedModel_simulated_as|].
assert (Hrates : Costs.getModelCosts costs (simulatedModel (provider rec)) =
                 listed_rates costs (simulated_as (provider rec))).
{ rewrite simulatedModel_simulated_as.
  unfold Costs.getModelCosts, Costs.costs_get, listed_rates.
  destruct (decide _); [done|].
  by destruct (Costs.named_rates costs !! simulated_as (provider rec)). }
unfold Costs.estimateCost.
cbn [Costs.fixedFeeUSD Costs.totalUSD Costs.inputCostUSD Costs.outputCostUSD
     Costs.inputTokens Costs.outputTokens Costs.requestFixedFeeUSD
     Costs.discountFactor Costs.charsPerToken Costs.promptChars
     Costs.expectedOutputTokens Costs.simulatedModelName default from_option id].
rewrite Hrates.
unfold estimateOutputTokens, getCharsPerToken, Costs.estimateTokens.
rewrite ratio_of_chars_per_token_of.
split.
{ intros n _ Hn. unfold Math_ceil. by rewrite Hn. }
split; [ring|]. split; [ring|]. split; [ring|]. split; [ring|].
set (tokens := Math_ceil (outputLength rec / chars_per_token_of (provider rec))).
assert (Hratio : 0 < chars_per_token_of (provider rec)).
{ unfold chars_per_token_of. by repeat destruct (decide _). }
split.
- destruct (truthyQ tokens && Qgt_bool tokens 0) eqn:E.
  + apply andb_true_iff in E as [_ E].
    by apply positive_ceiling_at_least_1.
  + apply Math_max_ge_l.
- intros n [Hpos _] Hn.
  assert (Hc : 0 < tokens).
  { unfold tokens. eapply Qlt_le_trans; [|apply Qle_ceiling].
    apply Qlt_shift_div_l; [done|]. rewrite Hn, Qmult_0_l.
    change 0 with (inject_Z 0). by rewrite <- Zlt_Qlt. }
  assert (Hg : Qgt_bool tokens 0 = true) by by apply Qgt_bool_true.
  assert (Ht : truthyQ tokens = true).
  { unfold truthyQ. apply negb_true_iff, not_true_is_false.
    rewrite Qeq_bool_iff. intros Heq. rewrite Heq in Hc.
    by apply Qlt_irrefl in Hc. }
  rewrite Ht, Hg. cbn [andb]. unfold tokens, Math_ceil. by rewrite Hn.
Qed.

(** A call of 50 characters in and 120 out. *)
Definition call_of (provider : string) : CallRecord :=
{| group := "TEXT_SMALL"; provider := provider; latencyMs := 100;
   success := true; jsonValid := None;
   promptLength := 50; outputLength := 120; timestamp := 0 |}.

(** Two calls, of mistral-7b and of a provider that is not listed. *)
Lemma estimateCostsForBaseline_prices_every_record_witness :
let calls := [call_of "ollama-mistral-7b"; call_of "my-provider"] in
map simulatedModelName (estimateCostsForBaseline Scenario.book calls) =
  ["claude-3-5-haiku-20241022"; "gpt-4o-mini"]%string ∧
Forall (baseline_estimate Scenario.book)
       (estimateCostsForBaseline Scenario.book calls).
Proof.
cbv zeta.
destruct (estimateCostsForBaseline_prices_every_record Scenario.book
            [call_of "ollama-mistral-7b"; call_of "my-provider"]) as [_ H].
- apply (bool_decide_unpack _). vm_compute. exact I.
- split; [vm_compute; reflexivity|exact H].
Defined.

End baseline.

(** ** Concrete cases of the further properties *)
Section further_cases.
Import Scenario.

(** After a success, one failure at 100 ms leaves the test breaker closed
    and the next one, at 200 ms, opens it. *)
Lemma success_or_reset_restarts_the_count_witness :
let cb1 := failures [100]
             (CircuitBreaker.onSuccess half_open_breaker "prov" "T") "prov" "T" in
CircuitBreaker.isOpen 150 cb1 "prov" "T" = (false, cb1) ∧
entry_of (CircuitBreaker.onFailure 200 cb1 "prov" "T") (CircuitBreaker.key "prov" "T") =
  {| CircuitBreaker.state := CircuitBreaker.open;
     CircuitBreaker.consecutiveFailures := 2;
     CircuitBreaker.openedAt := Some 200 |}.
Proof.
destruct (success_or_reset_restarts_the_count half_open_breaker
            (CircuitBreaker.onSuccess half_open_breaker "prov" "T")
            "prov" "T" [100] 200 150 (or_introl eq_refl))
  as (_ & Hquery & Hopens).
- reflexivity.
- split; [exact Hquery|]. apply Hopens. reflexivity.
Defined.

(** A failure of [prov] leaves the entry of [other] alone. *)
Lemma calls_leave_other_keys_alone_witness :
CircuitBreaker.map (apply_op test_breaker (call_onFailure 100 "prov" "T"))
  !! CircuitBreaker.key "other" "T" =
CircuitBreaker.map test_breaker !! CircuitBreaker.key "other" "T".
Proof.
apply (calls_leave_other_keys_alone test_breaker (call_onFailure 100 "prov" "T")
         (CircuitBreaker.key "prov" "T") (CircuitBreaker.key "other" "T")).
- reflexivity.
- intros H. vm_compute in H. discriminate H.
Defined.

(** The half-open entry of the test breaker carries its opening time. *)
Lemma reachable_entries_are_stamped_witness :
let e := {| CircuitBreaker.state := CircuitBreaker.half_open;
            CircuitBreaker.consecutiveFailures := 2;
            CircuitBreaker.openedAt := Some 200 |} in
CircuitBreaker.state e = CircuitBreaker.closed ↔ CircuitBreaker.openedAt e = None.
Proof.
apply (reachable_entries_are_stamped
         {| CircuitBreaker.failureThreshold := 2; CircuitBreaker.coolOffMs := 50 |}
         half_open_breaker (CircuitBreaker.key "prov" "T")).
- unfold half_open_breaker. do 3 apply reachable_step. apply reachable_new.
- vm_compute. reflexivity.
Defined.

(** Three records into a window of 2: the count is at most 2. *)
Lemma getStats_tallies_add_up_witness :
Telemetry.count
  (Telemetry.getStats
     (record_all (Telemetry.new 2) [sample 10; sample 20; sample 30]) "p" "T") ≤ 2.
Proof.
destruct (getStats_tallies_add_up 2 [sample 10; sample 20; sample 30] "p" "T")
  as (_ & _ & _ & _ & _ & H).
- lia.
- exact H.
Defined.

(** The percentiles of that window. *)
Lemma percentiles_are_ordered_window_latencies_witness :
let tel := record_all (Telemetry.new 2) [sample 10; sample 20; sample 30] in
∃ a b,
  Telemetry.p50Latency (Telemetry.getStats tel "p" "T") = Some a ∧
  Telemetry.p95Latency (Telemetry.getStats tel "p" "T") = Some b ∧
  a ≤ b ∧
  a ∈ map Telemetry.latencyMs (ring tel (Telemetry.key "p" "T")) ∧
  b ∈ map Telemetry.latencyMs (ring tel (Telemetry.key "p" "T")).
Proof.
apply (percentiles_are_ordered_window_latencies
         (record_all (Telemetry.new 2) [sample 10; sample 20; sample 30]) "p" "T").
intros H. vm_compute in H. discriminate H.
Defined.

(** A window of 0 keeps no record. *)
Lemma nonpositive_window_keeps_nothing_witness :
Telemetry.getStats (record_all (Telemetry.new 0) [sample 10; sample 20]) "p" "T"
  = no_stats.
Proof.
apply (nonpositive_window_keeps_nothing 0 [sample 10; sample 20] "p" "T"). lia.
Defined.

(** 400 characters and 100 expected output tokens for gpt-4o-mini. *)
Definition params_400 : Costs.CostEstimateParams :=
{| Costs.promptChars := 400 # 1;
   Costs.expectedOutputTokens := Some (100 # 1);
   Costs.simulatedModelName := "gpt-4o-mini";
   Costs.charsPerToken := None;
   Costs.requestFixedFeeUSD := Some (1 # 1000);
   Costs.discountFactor := None |}.

(** The lowest draw, 0, takes 5% off the total. *)
Lemma variance_moves_total_by_five_percent_witness :
((95 # 100) * Costs.totalUSD (Costs.estimateCost book params_400)
 <= Costs.totalUSD (Costs.estimateCostWithVariance book params_400 0))%Q.
Proof.
destruct (variance_moves_total_by_five_percent book params_400 0)
  as (_ & _ & _ & Hband & _).
- vm_compute. discriminate.
- vm_compute. reflexivity.
- apply Hband. vm_compute. discriminate.
Defined.

(** 800 characters cost at least what 400 do. *)
Lemma estimateCost_grows_with_the_prompt_witness :
(Costs.totalUSD (Costs.estimateCost book (with_promptChars (400 # 1) params_400))
 <= Costs.totalUSD (Costs.estimateCost book (with_promptChars (800 # 1) params_400)))%Q.
Proof.
destruct (estimateCost_grows_with_the_prompt book params_400 (400 # 1) (800 # 1))
  as (_ & _ & H).
- vm_compute. discriminate.
- vm_compute. discriminate.
- vm_compute. reflexivity.
- vm_compute. discriminate.
- vm_compute. discriminate.
- exact H.
Defined.

(** B, registered after A with the higher priority 7, is listed first. *)
Lemma registerModel_inserts_by_priority_witness :
map Provider.provider
  (Registry.getProviders
     (Registry.registerModel registry_A "T" answers "B" (Some (7 # 1)) None) "T")
  = ["B"; "A"]%string.
Proof.
destruct (registerModel_inserts_by_priority registry_A "T" answers "B"
            (Some (7 # 1)) None) as (H & _).
- unfold registry_A. apply built_register, built_empty.
- rewrite H. vm_compute. reflexivity.
Defined.

(** With no circuit open and no budget, A and B are both ranked. *)
Lemma select_keeps_every_available_candidate_witness :
map Policy.provider
  (fst (Policy.select book "TEXT_SMALL" [plain_A; plain_B]
          options_without_exploration (steady 0) fresh_world))
  ≡ₚ [plain_A; plain_B].
Proof.
destruct (select_keeps_every_available_candidate book "TEXT_SMALL"
            [plain_A; plain_B] options_without_exploration (steady 0) fresh_world)
  as (H & _).
- intros p _ e He. vm_compute in He. discriminate He.
- exact I.
- exact H.
Defined.

(** A prompt length of 0: provider A, which has a cost block, is ranked
    without an estimate. *)
Lemma select_without_prompt_length_estimates_nothing_witness :
∃ s, s ∈ fst (Policy.select book "T" [provider_A] (options_with_promptLength 0)
                (steady 0) fresh_world) ∧
     Policy.costEstimate s = None.
Proof.
destruct (fst (Policy.select book "T" [provider_A] (options_with_promptLength 0)
                 (steady 0) fresh_world)) as [|s l] eqn:E.
- vm_compute in E. discriminate E.
- exists s. split; [left|].
  apply (select_without_prompt_length_estimates_nothing book "T" [provider_A]
           (options_with_promptLength 0) (steady 0) fresh_world s).
  + vm_compute. discriminate.
  + rewrite E. left.
Defined.



(** After that answer the circuit of A is closed. *)
Lemma dispatch_success_closes_the_circuit_witness :
let r := Router.useModelWithInfo book "T" prompt_hello Policy.no_options None
           (steady 0) (world_with_budget 1) in
entry_of (circuit (snd r)) (CircuitBreaker.key "A" "T") = CircuitBreaker.fresh_entry.
Proof.
cbv zeta.
destruct (fst (Router.useModelWithInfo book "T" prompt_hello Policy.no_options None
                 (steady 0) (world_with_budget 1))) as [info|e] eqn:E.
- assert (Hp : Router.provider info = "A"%string).
  { vm_compute in E. injection E as <-. reflexivity. }
  destruct (dispatch_success_closes_the_circuit book "T" prompt_hello
              Policy.no_options None (steady 0) (world_with_budget 1) info E)
    as (H & _).
  rewrite Hp in H. exact H.
- vm_compute in E. discriminate E.
Defined.

End further_cases.
